(** * LinkTraverse: link traversal and forward kinematics of choreonoid

    A shallow embedding of [src/Body/LinkTraverse.cpp].

    - A pointer to a link is an [option LinkId]; [None] is the null
      pointer.  The link objects live in a store [Heap := LinkId -> Link.t],
      so that two traversal entries naming the same link share one state.
    - [double] is modelled by the real numbers; rounding is not modelled.
      [Vector3], [Matrix3] and [AngleAxisd] follow Eigen's definitions.
    - [numUpwardConnections] is an [int]; it is modelled by [Z] (an overflow
      of a signed [int] is undefined in C++ and is not modelled).
    - The recursive member functions follow pointers of the store, which may
      be cyclic, so they take a fuel argument and return [None] when it runs
      out.  A dereference of a null pointer or an access out of the bounds of
      [links_] is [None] as well. *)

From Stdlib Require Import List Arith ZArith Lia Bool Permutation.
From Stdlib Require Import Reals Lra RNsatz.
Import ListNotations.

(** ** Scalars, vectors and matrices *)

Record Vector3 := mkVector3 { vx : R; vy : R; vz : R }.

Record Matrix3 := mkMatrix3 {
  m00 : R; m01 : R; m02 : R;
  m10 : R; m11 : R; m12 : R;
  m20 : R; m21 : R; m22 : R }.

Definition LinkId := nat.
Definition BodyId := nat.

(** The joint type tags of [Link.h] that the [switch] statements name; every
    other tag is handled by their [default] label. *)
Inductive JointType :=
| ROTATIONAL_JOINT
| SLIDE_JOINT
| FIXED_JOINT
| OTHER_JOINT (tag : Z).

(** ** Links *)

Module Link.

Record t := mk {
  parent : option LinkId;
  child : option LinkId;
  sibling : option LinkId;
  body : option BodyId;
  jointType : JointType;
  q : Rdefinitions.R;
  dq : Rdefinitions.R;
  ddq : Rdefinitions.R;
  a : Vector3;
  d : Vector3;
  b : Vector3;
  Rb : Matrix3;
  R : Matrix3;
  p : Vector3;
  w : Vector3;
  v : Vector3;
  dw : Vector3;
  dv : Vector3 }.

Definition set_R (x : Matrix3) (l : t) : t :=
  mk (parent l) (child l) (sibling l) (body l) (jointType l) (q l) (dq l)
     (ddq l) (a l) (d l) (b l) (Rb l) x (p l) (w l) (v l) (dw l) (dv l).
Definition set_p (x : Vector3) (l : t) : t :=
  mk (parent l) (child l) (sibling l) (body l) (jointType l) (q l) (dq l)
     (ddq l) (a l) (d l) (b l) (Rb l) (R l) x (w l) (v l) (dw l) (dv l).
Definition set_w (x : Vector3) (l : t) : t :=
  mk (parent l) (child l) (sibling l) (body l) (jointType l) (q l) (dq l)
     (ddq l) (a l) (d l) (b l) (Rb l) (R l) (p l) x (v l) (dw l) (dv l).
Definition set_v (x : Vector3) (l : t) : t :=
  mk (parent l) (child l) (sibling l) (body l) (jointType l) (q l) (dq l)
     (ddq l) (a l) (d l) (b l) (Rb l) (R l) (p l) (w l) x (dw l) (dv l).
Definition set_dw (x : Vector3) (l : t) : t :=
  mk (parent l) (child l) (sibling l) (body l) (jointType l) (q l) (dq l)
     (ddq l) (a l) (d l) (b l) (Rb l) (R l) (p l) (w l) (v l) x (dv l).
Definition set_dv (x : Vector3) (l : t) : t :=
  mk (parent l) (child l) (sibling l) (body l) (jointType l) (q l) (dq l)
     (ddq l) (a l) (d l) (b l) (Rb l) (R l) (p l) (w l) (v l) (dw l) x.

End Link.

(** The store of link objects. *)
Definition Heap := LinkId -> Link.t.

(** Assignment through a pointer: the object at [x] becomes [f] of it. *)
Definition update (x : LinkId) (f : Link.t -> Link.t) (h : Heap) : Heap :=
  fun y => if Nat.eqb y x then f (h y) else h y.

(** Pointer comparison [a == b] of two link (or two body) pointers. *)
Definition ptr_eqb (a b : option nat) : bool :=
  match a, b with
  | Some x, Some y => Nat.eqb x y
  | None, None => true
  | _, _ => false
  end.

(** ** The traversal object *)

Record LinkTraverse := mkLinkTraverse {
  links_ : list LinkId;
  numUpwardConnections : Z }.

Definition push_back (link : LinkId) (t : LinkTraverse) : LinkTraverse :=
  mkLinkTraverse (links_ t ++ [link]) (numUpwardConnections t).

Definition incr (t : LinkTraverse) : LinkTraverse :=
  mkLinkTraverse (links_ t) (numUpwardConnections t + 1).

Definition decr (t : LinkTraverse) : LinkTraverse :=
  mkLinkTraverse (links_ t) (numUpwardConnections t - 1).

(** [LinkTraverse::clear] *)
Definition clear (t : LinkTraverse) : LinkTraverse := mkLinkTraverse [] 0.

Definition bind {A B : Type} (m : option A) (k : A -> option B) : option B :=
  match m with Some x => k x | None => None end.

Notation "x <- m ;; k" := (bind m (fun x => k))
  (at level 61, m at next level, right associativity).

(** [LinkTraverse::traverse], together with its loop over the children of
    [link], which follows the [sibling] pointers. *)
Fixpoint traverse (fuel : nat) (h : Heap) (link : LinkId)
    (doUpward doDownward isUpward : bool) (prev : option LinkId)
    (t : LinkTraverse) {struct fuel} : option LinkTraverse :=
  match fuel with
  | O => None
  | S fuel' =>
    let t := push_back link t in
    let t := if isUpward then incr t else t in
    let parent := Link.parent (h link) in
    t <- match parent with
         | Some par =>
           if doUpward && ptr_eqb (Link.body (h par)) (Link.body (h link))
           then traverse fuel' h par doUpward true true (Some link) t
           else Some t
         | None => Some t
         end ;;
    if doDownward
    then traverse_children fuel' h (Link.child (h link)) prev t
    else Some t
  end
with traverse_children (fuel : nat) (h : Heap) (child : option LinkId)
    (prev : option LinkId) (t : LinkTraverse) {struct fuel}
    : option LinkTraverse :=
  match child with
  | None => Some t
  | Some c =>
    match fuel with
    | O => None
    | S fuel' =>
      t <- (if negb (ptr_eqb (Some c) prev)
            then traverse fuel' h c false true false None t
            else Some t) ;;
      traverse_children fuel' h (Link.sibling (h c)) prev t
    end
  end.

(** [LinkTraverse::find] *)
Definition find (fuel : nat) (h : Heap) (root : LinkId)
    (doUpward doDownward : bool) (t : LinkTraverse) : option LinkTraverse :=
  let t := mkLinkTraverse (links_ t) 0 in
  let t := mkLinkTraverse [] (numUpwardConnections t) in
  traverse fuel h root doUpward doDownward false None t.

(** [LinkTraverse::append] *)
Definition append (link : LinkId) (isDownward : bool) (t : LinkTraverse)
    : LinkTraverse :=
  let t := push_back link t in
  if negb isDownward then incr t else t.

(** The search loop of [LinkTraverse::remove]: the first index, counted from
    [i], with [links_[i] == link]; [-1] when there is none. *)
Fixpoint remove_search (link : LinkId) (l : list LinkId) (i : Z) : Z :=
  match l with
  | [] => -1
  | x :: l' => if Nat.eqb x link then i else remove_search link l' (i + 1)
  end.

(** [links_.erase(links_.begin() + index)] *)
Fixpoint erase (l : list LinkId) (index : nat) : list LinkId :=
  match l, index with
  | [], _ => []
  | _ :: l', O => l'
  | x :: l', S i => x :: erase l' i
  end.

(** [LinkTraverse::remove] *)
Definition remove (link : LinkId) (t : LinkTraverse) : bool * LinkTraverse :=
  let index := remove_search link (links_ t) 0 in
  if (0 <=? index)%Z then
    let t := if (index <=? numUpwardConnections t)%Z then decr t else t in
    (true, mkLinkTraverse (erase (links_ t) (Z.to_nat index))
                          (numUpwardConnections t))
  else (false, t).

(** [LinkTraverse::findRootAdjacentLink], together with its loop over the
    children of [link].  The reference parameter [isUpward] is threaded
    through every call: a result carries the value it is left with. *)
Fixpoint findRootAdjacentLink (fuel : nat) (h : Heap) (link : LinkId)
    (prev : option LinkId) (root : LinkId) (isUpward : bool) {struct fuel}
    : option (option LinkId * bool) :=
  match fuel with
  | O => None
  | S fuel' =>
    if Nat.eqb link root then Some (prev, isUpward)
    else
      r <- (if isUpward then
              match Link.parent (h link) with
              | Some parent =>
                if negb (ptr_eqb (Some parent) prev)
                then findRootAdjacentLink fuel' h parent (Some link) root
                       isUpward
                else Some (None, isUpward)
              | None => Some (None, isUpward)
              end
            else Some (None, isUpward)) ;;
      match r with
      | (Some found, isUpward) => Some (Some found, isUpward)
      | (None, _) =>
        let isUpward := false in
        findRootAdjacentLink_children fuel' h link (Link.child (h link))
          prev root isUpward
      end
  end
with findRootAdjacentLink_children (fuel : nat) (h : Heap) (link : LinkId)
    (child : option LinkId) (prev : option LinkId) (root : LinkId)
    (isUpward : bool) {struct fuel} : option (option LinkId * bool) :=
  match child with
  | None => Some (None, isUpward)
  | Some c =>
    match fuel with
    | O => None
    | S fuel' =>
      r <- (if negb (ptr_eqb (Some c) prev)
            then findRootAdjacentLink fuel' h c (Some link) root isUpward
            else Some (None, isUpward)) ;;
      match r with
      | (Some found, isUpward) => Some (Some found, isUpward)
      | (None, isUpward) =>
        findRootAdjacentLink_children fuel' h link (Link.sibling (h c))
          prev root isUpward
      end
    end
  end.

(** [LinkTraverse::prependRootAdjacentLinkToward] *)
Definition prependRootAdjacentLinkToward (fuel : nat) (h : Heap)
    (link : LinkId) (t : LinkTraverse)
    : option (option LinkId * LinkTraverse) :=
  match links_ t with
  | front :: _ =>
    r <- findRootAdjacentLink fuel h link None front true ;;
    match r with
    | (Some linkToPrepend, isUpward) =>
      let t := mkLinkTraverse (linkToPrepend :: links_ t)
                              (numUpwardConnections t) in
      let t := if isUpward then incr t else t in
      Some (Some linkToPrepend, t)
    | (None, _) => Some (None, t)
    end
  | [] => Some (None, t)
  end.

(** ** Vector and matrix operations (Eigen) *)

Open Scope R_scope.

Definition vadd (u v : Vector3) : Vector3 :=
  mkVector3 (vx u + vx v) (vy u + vy v) (vz u + vz v).

Definition vsub (u v : Vector3) : Vector3 :=
  mkVector3 (vx u - vx v) (vy u - vy v) (vz u - vz v).

(** [s * v] *)
Definition vscale (s : R) (v : Vector3) : Vector3 :=
  mkVector3 (s * vx v) (s * vy v) (s * vz v).

(** [v * s] *)
Definition vscale_r (v : Vector3) (s : R) : Vector3 :=
  mkVector3 (vx v * s) (vy v * s) (vz v * s).

(** [u.cross(v)] *)
Definition cross (u v : Vector3) : Vector3 :=
  mkVector3 (vy u * vz v - vz u * vy v)
            (vz u * vx v - vx u * vz v)
            (vx u * vy v - vy u * vx v).

Definition mulMV (m : Matrix3) (v : Vector3) : Vector3 :=
  mkVector3 (m00 m * vx v + m01 m * vy v + m02 m * vz v)
            (m10 m * vx v + m11 m * vy v + m12 m * vz v)
            (m20 m * vx v + m21 m * vy v + m22 m * vz v).

Definition mulMM (m n : Matrix3) : Matrix3 :=
  mkMatrix3
    (m00 m * m00 n + m01 m * m10 n + m02 m * m20 n)
    (m00 m * m01 n + m01 m * m11 n + m02 m * m21 n)
    (m00 m * m02 n + m01 m * m12 n + m02 m * m22 n)
    (m10 m * m00 n + m11 m * m10 n + m12 m * m20 n)
    (m10 m * m01 n + m11 m * m11 n + m12 m * m21 n)
    (m10 m * m02 n + m11 m * m12 n + m12 m * m22 n)
    (m20 m * m00 n + m21 m * m10 n + m22 m * m20 n)
    (m20 m * m01 n + m21 m * m11 n + m22 m * m21 n)
    (m20 m * m02 n + m21 m * m12 n + m22 m * m22 n).

Definition transpose (m : Matrix3) : Matrix3 :=
  mkMatrix3 (m00 m) (m10 m) (m20 m)
            (m01 m) (m11 m) (m21 m)
            (m02 m) (m12 m) (m22 m).

Definition Identity : Matrix3 := mkMatrix3 1 0 0 0 1 0 0 0 1.

Definition Zero3 : Vector3 := mkVector3 0 0 0.

(** [AngleAxisd(angle, axis)] as the matrix it converts to when it is
    multiplied with a matrix ([AngleAxis::toRotationMatrix]). *)
Definition AngleAxisd (angle : R) (axis : Vector3) : Matrix3 :=
  let sin_axis := vscale (sin angle) axis in
  let c := cos angle in
  let cos1_axis := vscale (1 - c) axis in
  mkMatrix3
    (vx cos1_axis * vx axis + c)
    (vx cos1_axis * vy axis - vz sin_axis)
    (vx cos1_axis * vz axis + vy sin_axis)
    (vx cos1_axis * vy axis + vz sin_axis)
    (vy cos1_axis * vy axis + c)
    (vy cos1_axis * vz axis - vx sin_axis)
    (vx cos1_axis * vz axis - vy sin_axis)
    (vy cos1_axis * vz axis + vx sin_axis)
    (vz cos1_axis * vz axis + c).

(** [AngleAxisd(angle, axis).inverse()] *)
Definition AngleAxisd_inverse (angle : R) (axis : Vector3) : Matrix3 :=
  AngleAxisd (- angle) axis.

(** ** Forward kinematics *)

(** Assignments [link->R() = x] and the like. *)
Definition set_R (link : LinkId) (x : Matrix3) (h : Heap) : Heap :=
  update link (Link.set_R x) h.
Definition set_p (link : LinkId) (x : Vector3) (h : Heap) : Heap :=
  update link (Link.set_p x) h.
Definition set_w (link : LinkId) (x : Vector3) (h : Heap) : Heap :=
  update link (Link.set_w x) h.
Definition set_v (link : LinkId) (x : Vector3) (h : Heap) : Heap :=
  update link (Link.set_v x) h.
Definition set_dw (link : LinkId) (x : Vector3) (h : Heap) : Heap :=
  update link (Link.set_dw x) h.
Definition set_dv (link : LinkId) (x : Vector3) (h : Heap) : Heap :=
  update link (Link.set_dv x) h.

(** The body of the first loop of [calcForwardKinematics]: [link] is
    computed from [child], its predecessor in the traversal. *)
Definition upward_step (calcVelocity calcAcceleration : bool)
    (link child : LinkId) (h : Heap) : Heap :=
  match Link.jointType (h child) with
  | ROTATIONAL_JOINT =>
    let h := set_R link
      (mulMM (mulMM (Link.R (h child))
                    (AngleAxisd_inverse (Link.q (h child)) (Link.a (h child))))
             (transpose (Link.Rb (h child)))) h in
    let arm := mulMV (Link.R (h link)) (Link.b (h child)) in
    let h := set_p link (vsub (Link.p (h child)) arm) h in
    if calcVelocity then
      let sw := mulMV (Link.R (h link))
                      (mulMV (Link.Rb (h child)) (Link.a (h child))) in
      let h := set_w link
        (vsub (Link.w (h child)) (vscale (Link.dq (h child)) sw)) h in
      let h := set_v link
        (vsub (Link.v (h child)) (cross (Link.w (h link)) arm)) h in
      if calcAcceleration then
        let h := set_dw link
          (vsub (vsub (Link.dw (h child))
                      (vscale (Link.dq (h child))
                              (cross (Link.w (h link)) sw)))
                (vscale (Link.ddq (h child)) sw)) h in
        let h := set_dv link
          (vsub (vsub (Link.dv (h child))
                      (cross (Link.w (h link))
                             (cross (Link.w (h link)) arm)))
                (cross (Link.dw (h link)) arm)) h in
        h
      else h
    else h
  | SLIDE_JOINT =>
    let h := set_R link
      (mulMM (Link.R (h child)) (transpose (Link.Rb (h child)))) h in
    let arm := mulMV (Link.R (h link))
      (vadd (Link.b (h child))
            (mulMV (Link.Rb (h child))
                   (vscale (Link.q (h child)) (Link.d (h child))))) in
    let h := set_p link (vsub (Link.p (h child)) arm) h in
    if calcVelocity then
      let sv := mulMV (Link.R (h link))
                      (mulMV (Link.Rb (h child)) (Link.d (h child))) in
      let h := set_w link (Link.w (h child)) h in
      let h := set_v link
        (vsub (Link.v (h child)) (vscale (Link.dq (h child)) sv)) h in
      if calcAcceleration then
        let h := set_dw link (Link.dw (h child)) h in
        let h := set_dv link
          (vsub (vsub (vsub (vsub (Link.dv (h child))
                                  (cross (Link.w (h child))
                                         (cross (Link.w (h child)) arm)))
                            (cross (Link.dw (h child)) arm))
                      (vscale (2 * Link.dq (h child))
                              (cross (Link.w (h child)) sv)))
                (vscale (Link.ddq (h child)) sv)) h in
        h
      else h
    else h
  | _ =>
    let h := set_R link
      (mulMM (Link.R (h child)) (transpose (Link.Rb (h child)))) h in
    let arm := mulMV (Link.R (h link)) (Link.b (h child)) in
    let h := set_p link (vsub (Link.p (h child)) arm) h in
    if calcVelocity then
      let h := set_w link (Link.w (h child)) h in
      let h := set_v link
        (vsub (Link.v (h child)) (cross (Link.w (h link)) arm)) h in
      if calcAcceleration then
        let h := set_dw link (Link.dw (h child)) h in
        let h := set_dv link
          (vsub (vsub (Link.dv (h child))
                      (cross (Link.w (h child))
                             (cross (Link.w (h child)) arm)))
                (cross (Link.dw (h child)) arm)) h in
        h
      else h
    else h
  end.

(** The body of the second loop: [link] is computed from [parent], the
    link that [link->parent()] points to. *)
Definition downward_step (calcVelocity calcAcceleration : bool)
    (link parent : LinkId) (h : Heap) : Heap :=
  match Link.jointType (h link) with
  | ROTATIONAL_JOINT =>
    let h := set_R link
      (mulMM (mulMM (Link.R (h parent)) (Link.Rb (h link)))
             (AngleAxisd (Link.q (h link)) (Link.a (h link)))) h in
    let arm := mulMV (Link.R (h parent)) (Link.b (h link)) in
    let h := set_p link (vadd (Link.p (h parent)) arm) h in
    if calcVelocity then
      let sw := mulMV (Link.R (h parent))
                      (mulMV (Link.Rb (h link)) (Link.a (h link))) in
      let h := set_w link
        (vadd (Link.w (h parent)) (vscale_r sw (Link.dq (h link)))) h in
      let h := set_v link
        (vadd (Link.v (h parent)) (cross (Link.w (h parent)) arm)) h in
      if calcAcceleration then
        let h := set_dw link
          (vadd (vadd (Link.dw (h parent))
                      (vscale (Link.dq (h link))
                              (cross (Link.w (h parent)) sw)))
                (vscale (Link.ddq (h link)) sw)) h in
        let h := set_dv link
          (vadd (vadd (Link.dv (h parent))
                      (cross (Link.w (h parent))
                             (cross (Link.w (h parent)) arm)))
                (cross (Link.dw (h parent)) arm)) h in
        h
      else h
    else h
  | SLIDE_JOINT =>
    let h := set_R link (mulMM (Link.R (h parent)) (Link.Rb (h link))) h in
    let arm := mulMV (Link.R (h parent))
      (vadd (Link.b (h link))
            (mulMV (Link.Rb (h link))
                   (vscale (Link.q (h link)) (Link.d (h link))))) in
    let h := set_p link (vadd (Link.p (h parent)) arm) h in
    if calcVelocity then
      let sv := mulMV (Link.R (h parent))
                      (mulMV (Link.Rb (h link)) (Link.d (h link))) in
      let h := set_w link (Link.w (h parent)) h in
      let h := set_v link
        (vadd (Link.v (h parent)) (vscale_r sv (Link.dq (h link)))) h in
      if calcAcceleration then
        let h := set_dw link (Link.dw (h parent)) h in
        let h := set_dv link
          (vadd (vadd (vadd (vadd (Link.dv (h parent))
                                  (cross (Link.w (h parent))
                                         (cross (Link.w (h parent)) arm)))
                            (cross (Link.dw (h parent)) arm))
                      (vscale (2 * Link.dq (h link))
                              (cross (Link.w (h parent)) sv)))
                (vscale (Link.ddq (h link)) sv)) h in
        h
      else h
    else h
  | _ =>
    let h := set_R link (mulMM (Link.R (h parent)) (Link.Rb (h link))) h in
    let arm := mulMV (Link.R (h parent)) (Link.b (h link)) in
    let h := set_p link (vadd (Link.p (h parent)) arm) h in
    if calcVelocity then
      let h := set_w link (Link.w (h parent)) h in
      let h := set_v link
        (vadd (Link.v (h parent)) (cross (Link.w (h parent)) arm)) h in
      if calcAcceleration then
        let h := set_dw link (Link.dw (h parent)) h in
        let h := set_dv link
          (vadd (vadd (Link.dv (h parent))
                      (cross (Link.w (h parent))
                             (cross (Link.w (h parent)) arm)))
                (cross (Link.dw (h parent)) arm)) h in
        h
      else h
    else h
  end.

(** The first loop, [for(i=1; i <= numUpwardConnections; ++i)], with [n]
    iterations left. *)
Fixpoint upward_loop (n : nat) (calcVelocity calcAcceleration : bool)
    (t : LinkTraverse) (i : nat) (h : Heap) : option Heap :=
  match n with
  | O => Some h
  | S n' =>
    link <- nth_error (links_ t) i ;;
    child <- nth_error (links_ t) (i - 1) ;;
    upward_loop n' calcVelocity calcAcceleration t (S i)
      (upward_step calcVelocity calcAcceleration link child h)
  end.

(** The second loop, [for( ; i < n; ++i)], with [n] iterations left. *)
Fixpoint downward_loop (n : nat) (calcVelocity calcAcceleration : bool)
    (t : LinkTraverse) (i : nat) (h : Heap) : option Heap :=
  match n with
  | O => Some h
  | S n' =>
    link <- nth_error (links_ t) i ;;
    parent <- Link.parent (h link) ;;
    downward_loop n' calcVelocity calcAcceleration t (S i)
      (downward_step calcVelocity calcAcceleration link parent h)
  end.

(** [LinkTraverse::calcForwardKinematics].  The first loop runs
    [max 0 numUpwardConnections] times and leaves [i] one past its last
    index; the second runs from there to the end of [links_]. *)
Definition calcForwardKinematics (calcVelocity calcAcceleration : bool)
    (t : LinkTraverse) (h : Heap) : option Heap :=
  let up := Z.to_nat (numUpwardConnections t) in
  h <- upward_loop up calcVelocity calcAcceleration t 1%nat h ;;
  let i := S up in
  let n := length (links_ t) in
  downward_loop (n - i) calcVelocity calcAcceleration t i h.

Close Scope R_scope.

(** ** Tree-structured mechanisms

    The links of a body hang together by [child] and [sibling] pointers: a
    first-child, next-sibling tree.  A [forest] is the shape of such a chain
    of siblings with everything below them. *)

Inductive forest :=
| Nil
| Cons (id : LinkId) (children : forest) (siblings : forest).

(** The links of a forest, every link before its children and the children
    of a link in the order of the sibling chain. *)
Fixpoint preorder (f : forest) : list LinkId :=
  match f with
  | Nil => []
  | Cons i c s => i :: preorder c ++ preorder s
  end.

(** The links of the sibling chain itself. *)
Fixpoint roots (f : forest) : list LinkId :=
  match f with
  | Nil => []
  | Cons i _ s => i :: roots s
  end.

(** One sibling chain after the other. *)
Fixpoint fapp (l r : forest) : forest :=
  match l with
  | Nil => r
  | Cons i c s => Cons i c (fapp s r)
  end.

(** The sibling chain without the trees whose root is [prev]. *)
Fixpoint skip (prev : option LinkId) (f : forest) : forest :=
  match f with
  | Nil => Nil
  | Cons i c s =>
    if ptr_eqb (Some i) prev then skip prev s else Cons i c (skip prev s)
  end.

(** [lays h b par f first]: in the store [h] the sibling chain that starts
    at the pointer [first] has the shape [f]; its links have the parent
    pointer [par] and belong to the body [b], and so on below them. *)
Fixpoint lays (h : Heap) (b : option BodyId) (par : option LinkId)
    (f : forest) (first : option LinkId) : Prop :=
  match f with
  | Nil => first = None
  | Cons i c s =>
    first = Some i /\
    Link.parent (h i) = par /\
    Link.body (h i) = b /\
    lays h b (Some i) c (Link.child (h i)) /\
    lays h b par s (Link.sibling (h i))
  end.

(** The root of a mechanism: a link without a parent, or with a parent in
    another body. *)
Definition is_root (h : Heap) (x : LinkId) : Prop :=
  match Link.parent (h x) with
  | None => True
  | Some p => Link.body (h p) <> Link.body (h x)
  end.

(** A tree-structured mechanism in the store: the root link [r] with the
    forest [c] below it, all links distinct. *)
Definition mechanism (h : Heap) (r : LinkId) (c : forest) : Prop :=
  is_root h r /\
  lays h (Link.body (h r)) (Some r) c (Link.child (h r)) /\
  NoDup (r :: preorder c).

(** An ancestor of a link together with the siblings of the link (or of
    the ancestor below) to the left and to the right. *)
Record frame := mkFrame {
  fid : LinkId;
  fleft : forest;
  fright : forest }.

(** The children of the ancestor of frame [F] when [x] with the forest [cx]
    below it sits in the hole. *)
Definition plug (F : frame) (x : LinkId) (cx : forest) : forest :=
  fapp (fleft F) (Cons x cx (fright F)).

(** [up_lays h b x cx frames]: the ancestors of [x], from its parent to the
    root of the mechanism, are the links of [frames]. *)
Fixpoint up_lays (h : Heap) (b : option BodyId) (x : LinkId) (cx : forest)
    (frames : list frame) : Prop :=
  match frames with
  | [] => is_root h x
  | F :: rest =>
    Link.parent (h x) = Some (fid F) /\
    Link.body (h (fid F)) = b /\
    lays h b (Some (fid F)) (plug F x cx) (Link.child (h (fid F))) /\
    up_lays h b (fid F) (plug F x cx) rest
  end.

(** The ancestors, each followed, once the walk is back from the root, by
    the links hanging to its left and right: the order in which [traverse]
    meets the links above a link. *)
Fixpoint up_part (frames : list frame) : list LinkId :=
  match frames with
  | [] => []
  | F :: rest =>
    fid F :: up_part rest ++ preorder (fleft F) ++ preorder (fright F)
  end.

(** The parent-pointer path from [x] to the root of its mechanism: the
    pointers [traverse] follows upward. *)
Fixpoint parent_chain (fuel : nat) (h : Heap) (x : LinkId)
    : option (list LinkId) :=
  match fuel with
  | O => None
  | S fuel' =>
    match Link.parent (h x) with
    | Some par =>
      if ptr_eqb (Link.body (h par)) (Link.body (h x))
      then l <- parent_chain fuel' h par ;; Some (x :: l)
      else Some [x]
    | None => Some [x]
    end
  end.

(** Fuel that suffices for the loop over a sibling chain of shape [f]. *)
Fixpoint need (f : forest) : nat :=
  match f with
  | Nil => O
  | Cons _ c s => S (Nat.max (S (need c)) (need s))
  end.


(** ** Example stores *)

(** A link with the given pointers, a fixed joint and a state at rest. *)
Definition plain_link (parent child sibling : option LinkId)
    (body : option BodyId) : Link.t :=
  Link.mk parent child sibling body FIXED_JOINT 0 0 0 Zero3 Zero3 Zero3
          Identity Identity Zero3 Zero3 Zero3 Zero3 Zero3.

(** A body [7] with the root [0], its children [1] and [2], and the child
    [3] of [1]. *)
Definition fork_heap : Heap := fun i =>
  match i with
  | 0 => plain_link None (Some 1) None (Some 7)
  | 1 => plain_link (Some 0) (Some 3) (Some 2) (Some 7)
  | 2 => plain_link (Some 0) None None (Some 7)
  | 3 => plain_link (Some 1) None None (Some 7)
  | _ => plain_link None None None None
  end.

Definition fork_forest : forest :=
  Cons 1 (Cons 3 Nil Nil) (Cons 2 Nil Nil).

Definition empty_traverse : LinkTraverse := mkLinkTraverse [] 0.

(** ** The search of [findRootAdjacentLink] on the shape of a mechanism *)

(** The search below the link [p] through the sibling chain [f] for the
    link [F]: the parent of [F] when [F] is met. *)
Fixpoint parent_in (p : LinkId) (f : forest) (F : LinkId) : option LinkId :=
  match f with
  | Nil => None
  | Cons i c s =>
    if Nat.eqb i F then Some p
    else match parent_in i c F with
         | Some q => Some q
         | None => parent_in p s F
         end
  end.

(** The search from the link [x], with the forest [cx] below it and the
    ancestors [frames] above it, for the link [F]: first upward, then in
    the forest below [x] without the tree of [prev]. *)
Fixpoint adjacent_up (x : LinkId) (cx : forest) (prev : option LinkId)
    (frames : list frame) (F : LinkId) : option LinkId * bool :=
  if Nat.eqb x F then (prev, true)
  else
    match frames with
    | [] => (parent_in x (skip prev cx) F, false)
    | G :: rest =>
      match adjacent_up (fid G) (plug G x cx) (Some x) rest F with
      | (Some y, u) => (Some y, u)
      | (None, _) => (parent_in x (skip prev cx) F, false)
      end
    end.

(** The links of the sibling chain [f], and the links below them, point to
    their parents. *)
Fixpoint parents_ok (h : Heap) (p : LinkId) (f : forest) : Prop :=
  match f with
  | Nil => True
  | Cons i c s =>
    Link.parent (h i) = Some p /\ parents_ok h i c /\ parents_ok h p s
  end.

(** The link [n] parent pointers above [x]. *)
Fixpoint nth_parent (h : Heap) (n : nat) (x : LinkId) : option LinkId :=
  match n with
  | O => Some x
  | S k =>
    match Link.parent (h x) with
    | Some p => nth_parent h k p
    | None => None
    end
  end.

(** [toward h front target N]: [N] is the link next to [front] on the tree
    path from [front] to [target].  When [front] is an ancestor of [target]
    the path descends: [N] is the child of [front] that is [target] or an
    ancestor of it.  Otherwise the path ascends: [N] is the parent of
    [front]. *)
Definition toward (h : Heap) (front target N : LinkId) : Prop :=
  ((exists k, nth_parent h (S k) target = Some front) /\
   (exists j, nth_parent h j target = Some N) /\
   Link.parent (h N) = Some front) \/
  ((forall k, nth_parent h (S k) target <> Some front) /\
   Link.parent (h front) = Some N).

(** ** Traversals that [calcForwardKinematics] can run on *)

(** The links hanging to the left and right of the ancestors, from the
    root downward: what [traverse] appends once it is back from the
    root. *)
Fixpoint sides (frames : list frame) : list LinkId :=
  match frames with
  | [] => []
  | F :: rest => sides rest ++ preorder (fleft F) ++ preorder (fright F)
  end.

(** Every link of [todo] has a parent pointer to a link of [seen] or to
    a link before it in [todo]. *)
Fixpoint parents_before (h : Heap) (seen todo : list LinkId) : Prop :=
  match todo with
  | [] => True
  | y :: rest =>
    (exists q, Link.parent (h y) = Some q /\ In q seen) /\
    parents_before h (seen ++ [y]) rest
  end.

(** ** Example stores for the kinematics *)

(** The root [0] at the origin with the link [1] below it: a rotational
    joint about the z axis at a quarter turn, at the offset [(1, 0, 0)]. *)
Definition quarter_turn_heap : Heap := fun i =>
  match i with
  | 0 => plain_link None (Some 1) None (Some 7)
  | 1 => Link.mk (Some 0) None None (Some 7) ROTATIONAL_JOINT
           (PI / 2) 0 0 (mkVector3 0 0 1) Zero3 (mkVector3 1 0 0)
           Identity Identity Zero3 Zero3 Zero3 Zero3 Zero3
  | _ => plain_link None None None None
  end.

(** The root [0] turning about the z axis with the link [1] fixed to it at
    the offset [(1, 0, 0)]; every [dq] and [ddq] is zero. *)
Definition turning_heap : Heap := fun i =>
  match i with
  | 0 => Link.mk None (Some 1) None (Some 7) FIXED_JOINT
           0 0 0 Zero3 Zero3 Zero3
           Identity Identity Zero3 (mkVector3 0 0 1) Zero3 Zero3 Zero3
  | 1 => Link.mk (Some 0) None None (Some 7) FIXED_JOINT
           0 0 0 Zero3 Zero3 (mkVector3 1 0 0)
           Identity Identity Zero3 Zero3 Zero3 Zero3 Zero3
  | _ => plain_link None None None None
  end.

Definition root_and_child : LinkTraverse := mkLinkTraverse [0; 1] 0.

(** ** What [calcForwardKinematics] leaves alone *)

(** The two link objects agree on the structural pointers, the joint type,
    the joint state and the joint geometry. *)
Definition same_model (l l' : Link.t) : Prop :=
  Link.parent l' = Link.parent l /\
  Link.child l' = Link.child l /\
  Link.sibling l' = Link.sibling l /\
  Link.body l' = Link.body l /\
  Link.jointType l' = Link.jointType l /\
  Link.q l' = Link.q l /\
  Link.dq l' = Link.dq l /\
  Link.ddq l' = Link.ddq l /\
  Link.a l' = Link.a l /\
  Link.d l' = Link.d l /\
  Link.b l' = Link.b l /\
  Link.Rb l' = Link.Rb l.

(** [keeps cv ca l l']: [l'] differs from [l] at most in [R] and [p], in
    [w] and [v] when [cv] is set, and in [dw] and [dv] when both [cv] and
    [ca] are set. *)
Definition keeps (cv ca : bool) (l l' : Link.t) : Prop :=
  same_model l l' /\
  (cv = false -> Link.w l' = Link.w l /\ Link.v l' = Link.v l) /\
  (cv && ca = false -> Link.dw l' = Link.dw l /\ Link.dv l' = Link.dv l).

(** [writes_only cv ca link h h']: the store [h'] differs from [h] at most in
    the link [link], and there at most as [keeps] allows. *)
Definition writes_only (cv ca : bool) (link : LinkId) (h h' : Heap)
    : Prop :=
  forall x, (x <> link -> h' x = h x) /\ keeps cv ca (h x) (h' x).

(** The arm of the joint of the link object [l] below the link object
    [par]: the vector from the origin of the parent to the origin of the
    link, as the second loop computes it. *)
Definition joint_arm (par l : Link.t) : Vector3 :=
  match Link.jointType l with
  | SLIDE_JOINT =>
    mulMV (Link.R par)
      (vadd (Link.b l)
            (mulMV (Link.Rb l) (vscale (Link.q l) (Link.d l))))
  | _ => mulMV (Link.R par) (Link.b l)
  end.

(** The pose relation that the second loop sets up between a link and its
    parent: the rotation and the position of the link are those of the
    parent carried over the joint of the link. *)
Definition pose_rel (par l : Link.t) : Prop :=
  Link.R l =
    match Link.jointType l with
    | ROTATIONAL_JOINT =>
      mulMM (mulMM (Link.R par) (Link.Rb l))
            (AngleAxisd (Link.q l) (Link.a l))
    | _ => mulMM (Link.R par) (Link.Rb l)
    end /\
  Link.p l = vadd (Link.p par) (joint_arm par l).

(** The same between two links of the store. *)
Definition downward_pose (h : Heap) (parent link : LinkId) : Prop :=
  pose_rel (h parent) (h link).

(** The velocities and accelerations on the two sides of a joint at rest
    ([dq = ddq = 0]): the link turns with its parent, and its linear
    velocity and acceleration are those of the parent carried over the
    arm; a slide joint takes the linear velocity over as it is. *)
Definition at_rest_rel (par l : Link.t) : Prop :=
  Link.w l = Link.w par /\
  Link.dw l = Link.dw par /\
  Link.v l =
    match Link.jointType l with
    | SLIDE_JOINT => Link.v par
    | _ => vadd (Link.v par) (cross (Link.w par) (joint_arm par l))
    end /\
  Link.dv l =
    vadd (vadd (Link.dv par)
               (cross (Link.w par) (cross (Link.w par) (joint_arm par l))))
         (cross (Link.dw par) (joint_arm par l)).

(** [m] is a rotation matrix as far as the upward pass needs it. *)
Definition orthogonal (m : Matrix3) : Prop :=
  mulMM (transpose m) m = Identity.

(** [a] has length 1. *)
Definition unit_vector (a : Vector3) : Prop :=
  (vx a * vx a + vy a * vy a + vz a * vz a = 1)%R.

(** The traversal from the link [1] upward to the root [0]. *)
Definition child_and_root : LinkTraverse := mkLinkTraverse [1; 0] 1.

(** The store after [calcForwardKinematics(true, true)] on
    [root_and_child] in [turning_heap]. *)
Definition turning_result : Heap :=
  downward_step true true 1 0 turning_heap.

(** The same with [calcVelocity = false] and [calcAcceleration = true]. *)
Definition turning_pose_only : Heap :=
  downward_step false true 1 0 turning_heap.

(** ** The steps on distinct links *)

(** The first loop's step on the link objects themselves, for a [link]
    that is not [child]: [l] is the object of [link], [chi] that of
    [child]. *)
Definition upward_link (calcVelocity calcAcceleration : bool)
    (chi l : Link.t) : Link.t :=
  match Link.jointType chi with
  | ROTATIONAL_JOINT =>
    let l := Link.set_R
      (mulMM (mulMM (Link.R chi)
                    (AngleAxisd_inverse (Link.q chi) (Link.a chi)))
             (transpose (Link.Rb chi))) l in
    let arm := mulMV (Link.R l) (Link.b chi) in
    let l := Link.set_p (vsub (Link.p chi) arm) l in
    if calcVelocity then
      let sw := mulMV (Link.R l)
                      (mulMV (Link.Rb chi) (Link.a chi)) in
      let l := Link.set_w
        (vsub (Link.w chi) (vscale (Link.dq chi) sw)) l in
      let l := Link.set_v
        (vsub (Link.v chi) (cross (Link.w l) arm)) l in
      if calcAcceleration then
        let l := Link.set_dw
          (vsub (vsub (Link.dw chi)
                      (vscale (Link.dq chi)
                              (cross (Link.w l) sw)))
                (vscale (Link.ddq chi) sw)) l in
        let l := Link.set_dv
          (vsub (vsub (Link.dv chi)
                      (cross (Link.w l)
                             (cross (Link.w l) arm)))
                (cross (Link.dw l) arm)) l in
        l
      else l
    else l
  | SLIDE_JOINT =>
    let l := Link.set_R
      (mulMM (Link.R chi) (transpose (Link.Rb chi))) l in
    let arm := mulMV (Link.R l)
      (vadd (Link.b chi)
            (mulMV (Link.Rb chi)
                   (vscale (Link.q chi) (Link.d chi)))) in
    let l := Link.set_p (vsub (Link.p chi) arm) l in
    if calcVelocity then
      let sv := mulMV (Link.R l)
                      (mulMV (Link.Rb chi) (Link.d chi)) in
      let l := Link.set_w (Link.w chi) l in
      let l := Link.set_v
        (vsub (Link.v chi) (vscale (Link.dq chi) sv)) l in
      if calcAcceleration then
        let l := Link.set_dw (Link.dw chi) l in
        let l := Link.set_dv
          (vsub (vsub (vsub (vsub (Link.dv chi)
                                  (cross (Link.w chi)
                                         (cross (Link.w chi) arm)))
                            (cross (Link.dw chi) arm))
                      (vscale (2 * Link.dq chi)
                              (cross (Link.w chi) sv)))
                (vscale (Link.ddq chi) sv)) l in
        l
      else l
    else l
  | _ =>
    let l := Link.set_R
      (mulMM (Link.R chi) (transpose (Link.Rb chi))) l in
    let arm := mulMV (Link.R l) (Link.b chi) in
    let l := Link.set_p (vsub (Link.p chi) arm) l in
    if calcVelocity then
      let l := Link.set_w (Link.w chi) l in
      let l := Link.set_v
        (vsub (Link.v chi) (cross (Link.w l) arm)) l in
      if calcAcceleration then
        let l := Link.set_dw (Link.dw chi) l in
        let l := Link.set_dv
          (vsub (vsub (Link.dv chi)
                      (cross (Link.w chi)
                             (cross (Link.w chi) arm)))
                (cross (Link.dw chi) arm)) l in
        l
      else l
    else l
  end.

(** The second loop's step on the link objects themselves, for a [link]
    that is not its own parent: [l] is the object of [link], [par] that of
    its parent. *)
Definition downward_link (calcVelocity calcAcceleration : bool)
    (par l : Link.t) : Link.t :=
  match Link.jointType l with
  | ROTATIONAL_JOINT =>
    let l := Link.set_R
      (mulMM (mulMM (Link.R par) (Link.Rb l))
             (AngleAxisd (Link.q l) (Link.a l))) l in
    let arm := mulMV (Link.R par) (Link.b l) in
    let l := Link.set_p (vadd (Link.p par) arm) l in
    if calcVelocity then
      let sw := mulMV (Link.R par)
                      (mulMV (Link.Rb l) (Link.a l)) in
      let l := Link.set_w
        (vadd (Link.w par) (vscale_r sw (Link.dq l))) l in
      let l := Link.set_v
        (vadd (Link.v par) (cross (Link.w par) arm)) l in
      if calcAcceleration then
        let l := Link.set_dw
          (vadd (vadd (Link.dw par)
                      (vscale (Link.dq l)
                              (cross (Link.w par) sw)))
                (vscale (Link.ddq l) sw)) l in
        let l := Link.set_dv
          (vadd (vadd (Link.dv par)
                      (cross (Link.w par)
                             (cross (Link.w par) arm)))
                (cross (Link.dw par) arm)) l in
        l
      else l
    else l
  | SLIDE_JOINT =>
    let l := Link.set_R (mulMM (Link.R par) (Link.Rb l)) l in
    let arm := mulMV (Link.R par)
      (vadd (Link.b l)
            (mulMV (Link.Rb l)
                   (vscale (Link.q l) (Link.d l)))) in
    let l := Link.set_p (vadd (Link.p par) arm) l in
    if calcVelocity then
      let sv := mulMV (Link.R par)
                      (mulMV (Link.Rb l) (Link.d l)) in
      let l := Link.set_w (Link.w par) l in
      let l := Link.set_v
        (vadd (Link.v par) (vscale_r sv (Link.dq l))) l in
      if calcAcceleration then
        let l := Link.set_dw (Link.dw par) l in
        let l := Link.set_dv
          (vadd (vadd (vadd (vadd (Link.dv par)
                                  (cross (Link.w par)
                                         (cross (Link.w par) arm)))
                            (cross (Link.dw par) arm))
                      (vscale (2 * Link.dq l)
                              (cross (Link.w par) sv)))
                (vscale (Link.ddq l) sv)) l in
        l
      else l
    else l
  | _ =>
    let l := Link.set_R (mulMM (Link.R par) (Link.Rb l)) l in
    let arm := mulMV (Link.R par) (Link.b l) in
    let l := Link.set_p (vadd (Link.p par) arm) l in
    if calcVelocity then
      let l := Link.set_w (Link.w par) l in
      let l := Link.set_v
        (vadd (Link.v par) (cross (Link.w par) arm)) l in
      if calcAcceleration then
        let l := Link.set_dw (Link.dw par) l in
        let l := Link.set_dv
          (vadd (vadd (Link.dv par)
                      (cross (Link.w par)
                             (cross (Link.w par) arm)))
                (cross (Link.dw par) arm)) l in
        l
      else l
    else l
  end.


(** ** Further notions for the properties beyond the claims *)

(** The index bound that the first loop of [calcForwardKinematics] relies
    on: [numUpwardConnections] is an index of [links_]. *)
Definition in_bounds (t : LinkTraverse) : Prop :=
  (numUpwardConnections t < Z.of_nat (length (links_ t)))%Z.

(** The link [n] sibling pointers after the pointer [c]. *)
Fixpoint nth_sibling (h : Heap) (n : nat) (c : option LinkId)
    : option LinkId :=
  match n, c with
  | O, _ => c
  | S k, Some x => nth_sibling h k (Link.sibling (h x))
  | S _, None => None
  end.

(** [F] is met by the loop [for(child = N->child(); child; child =
    child->sibling())] over the children of [N]. *)
Definition in_child_list (h : Heap) (N F : LinkId) : Prop :=
  exists k, nth_sibling h k (Link.child (h N)) = Some F.

(** A traversal built by [clear] and one [append] for every entry of
    [ops], a link with its [isDownward] flag. *)
Definition appended (ops : list (LinkId * bool)) (t : LinkTraverse)
    : LinkTraverse :=
  fold_left (fun t op => append (fst op) (snd op) t) ops (clear t).

(** The two link objects agree on what the pose formulas read besides the
    pose of the predecessor. *)
Definition same_joint (l l' : Link.t) : Prop :=
  Link.jointType l' = Link.jointType l /\
  Link.q l' = Link.q l /\
  Link.a l' = Link.a l /\
  Link.d l' = Link.d l /\
  Link.b l' = Link.b l /\
  Link.Rb l' = Link.Rb l.

(** The two link objects have the same pose. *)
Definition same_pose (l l' : Link.t) : Prop :=
  Link.R l' = Link.R l /\ Link.p l' = Link.p l.


(** The two link objects have the same velocities and accelerations. *)
Definition same_motion (l l' : Link.t) : Prop :=
  Link.w l' = Link.w l /\ Link.v l' = Link.v l /\
  Link.dw l' = Link.dw l /\ Link.dv l' = Link.dv l.
(** ** Basic facts *)

Lemma ptr_eqb_true (a b : option nat) : ptr_eqb a b = true <-> a = b.
Proof.
  destruct a as [x|], b as [y|]; simpl; split; intros H;
    try discriminate; try reflexivity.
  - apply Nat.eqb_eq in H. now subst.
  - injection H as ->. apply Nat.eqb_refl.
Qed.

Lemma ptr_eqb_false (a b : option nat) : ptr_eqb a b = false <-> a <> b.
Proof.
  rewrite <- ptr_eqb_true. destruct (ptr_eqb a b); split; congruence.
Qed.

Lemma ptr_eqb_refl (a : option nat) : ptr_eqb a a = true.
Proof. now apply ptr_eqb_true. Qed.

Lemma skip_None (f : forest) : skip None f = f.
Proof. induction f; simpl; congruence. Qed.

Lemma preorder_fapp (l r : forest) :
  preorder (fapp l r) = preorder l ++ preorder r.
Proof.
  induction l; simpl; [reflexivity|].
  rewrite IHl2, !app_assoc. reflexivity.
Qed.

Lemma roots_preorder (f : forest) (x : LinkId) :
  In x (roots f) -> In x (preorder f).
Proof.
  induction f; simpl; [tauto|].
  intros [->|H]; [now left|right]. apply in_or_app. right. auto.
Qed.

Lemma skip_Cons prev i c s :
  skip prev (Cons i c s) =
  if ptr_eqb (Some i) prev then skip prev s else Cons i c (skip prev s).
Proof. reflexivity. Qed.

Lemma skip_absent (x : LinkId) (f : forest) :
  ~ In x (roots f) -> skip (Some x) f = f.
Proof.
  induction f; simpl; [reflexivity|]. intros H.
  destruct (Nat.eqb id x) eqn:E.
  - apply Nat.eqb_eq in E. tauto.
  - rewrite IHf2 by tauto. reflexivity.
Qed.

Lemma skip_plug (x : LinkId) (cx l r : forest) :
  ~ In x (roots l) -> ~ In x (roots r) ->
  skip (Some x) (fapp l (Cons x cx r)) = fapp l r.
Proof.
  induction l; simpl; intros Hl Hr.
  - rewrite Nat.eqb_refl. now apply skip_absent.
  - destruct (Nat.eqb id x) eqn:E.
    + apply Nat.eqb_eq in E. tauto.
    + rewrite IHl2 by tauto. reflexivity.
Qed.

Lemma traverse_S fuel h link doUpward doDownward isUpward prev t :
  traverse (S fuel) h link doUpward doDownward isUpward prev t =
  (let t := push_back link t in
   let t := if isUpward then incr t else t in
   t <- match Link.parent (h link) with
        | Some par =>
          if doUpward && ptr_eqb (Link.body (h par)) (Link.body (h link))
          then traverse fuel h par doUpward true true (Some link) t
          else Some t
        | None => Some t
        end ;;
   if doDownward
   then traverse_children fuel h (Link.child (h link)) prev t
   else Some t).
Proof. reflexivity. Qed.

Lemma traverse_children_S fuel h c prev t :
  traverse_children (S fuel) h (Some c) prev t =
  (t <- (if negb (ptr_eqb (Some c) prev)
         then traverse fuel h c false true false None t
         else Some t) ;;
   traverse_children fuel h (Link.sibling (h c)) prev t).
Proof. reflexivity. Qed.

Lemma traverse_children_None fuel h prev t :
  traverse_children fuel h None prev t = Some t.
Proof. destruct fuel; reflexivity. Qed.

(** ** The downward walk *)

(** The loop over a sibling chain of shape [f] appends the links of [f] in
    preorder, without the trees rooted at [prev], and leaves the count of
    upward connections alone. *)
Lemma traverse_children_lays h b :
  forall f par first prev fuel t,
    lays h b par f first ->
    need f <= fuel ->
    traverse_children fuel h first prev t =
    Some (mkLinkTraverse (links_ t ++ preorder (skip prev f))
                         (numUpwardConnections t)).
Proof.
  induction f as [|i c IHc s IHs]; intros par first prev fuel t Hl Hf.
  - simpl in Hl. subst first. rewrite traverse_children_None.
    simpl. rewrite app_nil_r. now destruct t.
  - simpl in Hl. destruct Hl as (-> & Hp & Hb & Hc & Hs).
    change (S (Nat.max (S (need c)) (need s)) <= fuel) in Hf.
    destruct fuel as [|fuel]; [lia|].
    rewrite traverse_children_S, skip_Cons.
    destruct (ptr_eqb (Some i) prev) eqn:E; simpl negb; cbv iota.
    + simpl bind. apply IHs with (par := par); [assumption|lia].
    + destruct fuel as [|fuel]; [lia|].
      rewrite traverse_S. cbv zeta. cbn [andb].
      replace (match Link.parent (h i) with
               | Some _ => Some (push_back i t)
               | None => Some (push_back i t)
               end) with (Some (push_back i t))
        by (now destruct (Link.parent (h i))).
      cbn [bind].
      rewrite (IHc (Some i) _ None fuel (push_back i t) Hc) by lia.
      rewrite skip_None. cbn [bind].
      rewrite (IHs par _ prev (S fuel) _ Hs) by lia.
      simpl. rewrite <- !app_assoc. reflexivity.
Qed.

(** Permutations of lists built from [::] and [++], by counting. *)
Ltac perm_count :=
  apply (Permutation_count_occ Nat.eq_dec); intro;
  repeat (rewrite ?count_occ_app; cbn [count_occ app]);
  repeat match goal with
         | |- context [Nat.eq_dec ?a ?b] => destruct (Nat.eq_dec a b)
         end;
  lia.

Lemma LinkTraverse_eq (t : LinkTraverse) l n :
  links_ t = l -> numUpwardConnections t = n -> t = mkLinkTraverse l n.
Proof. destruct t; simpl; congruence. Qed.

(** Lists equal up to associativity, counts up to arithmetic. *)
Ltac finish_lists :=
  try solve [ repeat (rewrite <- ?app_assoc; cbn [app up_part]);
              rewrite ?app_nil_r; reflexivity
            | cbn [length]; lia ].

(** ** The upward walk *)

(** Started at a link [x] below the ancestors [frames], [traverse] with
    [doUpward] appends [x], then what lies above [x], then, when
    [doDownward] is set, what lies below [x]; the count grows by one for
    every ancestor. *)
Lemma traverse_up h b :
  forall frames x cx,
    Link.body (h x) = b ->
    lays h b (Some x) cx (Link.child (h x)) ->
    up_lays h b x cx frames ->
    NoDup (x :: up_part frames ++ preorder cx) ->
    exists n, forall fuel down isUp prev t,
      n <= fuel ->
      traverse fuel h x true down isUp prev t =
      Some (mkLinkTraverse
              (links_ t ++ x :: up_part frames ++
                 (if down then preorder (skip prev cx) else []))
              (numUpwardConnections t + (if isUp then 1 else 0)
                 + Z.of_nat (length frames))).
Proof.
  induction frames as [|F rest IH]; intros x cx Hb Hc Hup Hnd.
  - exists (S (need cx)). intros fuel down isUp prev t Hf.
    destruct fuel as [|fuel]; [lia|].
    rewrite traverse_S. cbv zeta. simpl in Hup. unfold is_root in Hup.
    set (t1 := if isUp then incr (push_back x t) else push_back x t).
    assert (E : match Link.parent (h x) with
                | Some par =>
                  if true && ptr_eqb (Link.body (h par)) (Link.body (h x))
                  then traverse fuel h par true true true (Some x) t1
                  else Some t1
                | None => Some t1
                end = Some t1).
    { destruct (Link.parent (h x)) as [p|]; [|reflexivity].
      apply ptr_eqb_false in Hup. rewrite Hup. reflexivity. }
    rewrite E. cbn [bind].
    assert (Et : links_ t1 = links_ t ++ [x] /\
                 numUpwardConnections t1 =
                 (numUpwardConnections t + (if isUp then 1 else 0))%Z).
    { subst t1. destruct isUp; simpl; split; auto; lia. }
    destruct Et as [El En].
    destruct down;
      [rewrite (traverse_children_lays h b cx _ _ prev fuel _ Hc) by lia|];
      f_equal; apply LinkTraverse_eq; cbn [links_ numUpwardConnections];
      rewrite ?El, ?En; finish_lists.
  - simpl in Hup. destruct Hup as (Hp & Hbp & Hlp & Hup).
    assert (Hnd' : NoDup (fid F :: up_part rest ++ preorder (plug F x cx))).
    { eapply Permutation_NoDup; [|exact Hnd].
      unfold plug. rewrite preorder_fapp. simpl. perm_count. }
    destruct (IH (fid F) (plug F x cx) Hbp Hlp Hup Hnd') as [n1 Hn1].
    exists (S (Nat.max n1 (need cx))).
    intros fuel down isUp prev t Hf.
    destruct fuel as [|fuel]; [lia|].
    rewrite traverse_S. cbv zeta. rewrite Hp, Hbp, Hb, ptr_eqb_refl.
    cbn [andb]. rewrite Hn1 by lia. cbn [bind].
    assert (Hsk : skip (Some x) (plug F x cx) = fapp (fleft F) (fright F)).
    { apply skip_plug; intros Hin; apply roots_preorder in Hin;
        inversion Hnd as [|? ? Hx _]; subst; apply Hx; simpl;
        right; rewrite !in_app_iff; tauto. }
    rewrite Hsk, preorder_fapp.
    set (t1 := if isUp then incr (push_back x t) else push_back x t).
    assert (Et : links_ t1 = links_ t ++ [x] /\
                 numUpwardConnections t1 =
                 (numUpwardConnections t + (if isUp then 1 else 0))%Z).
    { subst t1. destruct isUp; simpl; split; auto; lia. }
    destruct Et as [El En]. rewrite El, En.
    destruct down;
      [rewrite (traverse_children_lays h b cx _ _ prev fuel _ Hc) by lia|];
      f_equal; apply LinkTraverse_eq; cbn [links_ numUpwardConnections];
      finish_lists.
Qed.

(** ** Locating a link in a mechanism *)

Lemma fapp_assoc (l m r : forest) : fapp (fapp l m) r = fapp l (fapp m r).
Proof. induction l; simpl; congruence. Qed.

Lemma lays_fapp_r h b par :
  forall l r first,
    lays h b par (fapp l r) first -> exists mid, lays h b par r mid.
Proof.
  induction l as [|i c _ s IHs]; simpl; intros r first H.
  - eauto.
  - destruct H as (_ & _ & _ & _ & H). eauto.
Qed.

Lemma last_default (A : Type) (l : list A) :
  forall y d d', last (y :: l) d = last (y :: l) d'.
Proof.
  induction l as [|z l IH]; intros y d d'; [reflexivity|].
  change (last (z :: l) d = last (z :: l) d'). apply IH.
Qed.

Lemma last_cons (A : Type) (a d : A) (l : list A) :
  last (a :: l) d = last l a.
Proof. destruct l; [reflexivity|]. apply (last_default A l a0 d a). Qed.

(** Every link of the forest below [p] has ancestors that end with those
    of [p], and its traversal meets the same links as that of [p]. *)
Lemma locate h b :
  forall f p fs l,
    Link.body (h p) = b ->
    lays h b (Some p) (fapp l f) (Link.child (h p)) ->
    up_lays h b p (fapp l f) fs ->
    forall x, In x (preorder f) ->
    exists cx frames,
      Link.body (h x) = b /\
      lays h b (Some x) cx (Link.child (h x)) /\
      up_lays h b x cx frames /\
      Permutation (x :: up_part frames ++ preorder cx)
                  (p :: up_part fs ++ preorder (fapp l f)) /\
      last (map fid frames) x = last (map fid fs) p.
Proof.
  induction f as [|i c IHc s IHs]; intros p fs l Hb Hl Hup x Hin.
  - destruct Hin.
  - destruct (lays_fapp_r h b (Some p) l _ _ Hl) as (mid & Hi).
    simpl in Hi. destruct Hi as (_ & Hpi & Hbi & Hci & _).
    assert (HupF : up_lays h b i c (mkFrame p l s :: fs)).
    { simpl. unfold plug. simpl. auto. }
    simpl in Hin. destruct Hin as [->|Hin].
    + exists c, (mkFrame p l s :: fs). repeat split; auto.
      * rewrite preorder_fapp. simpl. perm_count.
      * simpl map. apply last_cons.
    + apply in_app_or in Hin. destruct Hin as [Hin|Hin].
      * destruct (IHc i (mkFrame p l s :: fs) Nil Hbi Hci HupF x Hin)
          as (cx & frames & H1 & H2 & H3 & H4 & H5).
        exists cx, frames. repeat split; auto.
        -- etransitivity; [exact H4|].
           rewrite !preorder_fapp. simpl. perm_count.
        -- rewrite H5. simpl map. apply last_cons.
      * assert (E : fapp l (Cons i c s) = fapp (fapp l (Cons i c Nil)) s).
        { rewrite fapp_assoc. reflexivity. }
        rewrite E in Hl, Hup.
        destruct (IHs p fs (fapp l (Cons i c Nil)) Hb Hl Hup x Hin)
          as (cx & frames & H1 & H2 & H3 & H4 & H5).
        exists cx, frames. rewrite E. repeat split; auto.
Qed.

Lemma locate_mechanism h r c x :
  mechanism h r c -> In x (r :: preorder c) ->
  exists cx frames,
    lays h (Link.body (h x)) (Some x) cx (Link.child (h x)) /\
    up_lays h (Link.body (h x)) x cx frames /\
    Permutation (x :: up_part frames ++ preorder cx) (r :: preorder c) /\
    last (map fid frames) x = r.
Proof.
  intros (Hr & Hl & Hnd) [->|Hin].
  - exists c, []. simpl. auto.
  - destruct (locate h (Link.body (h r)) c r [] Nil eq_refl Hl Hr x Hin)
      as (cx & frames & H1 & H2 & H3 & H4 & H5).
    exists cx, frames. rewrite H1. simpl in H4, H5. auto.
Qed.

(** The parent pointers that [traverse] follows from [x] lead through the
    ancestors of [x]. *)
Lemma parent_chain_up h b :
  forall frames x cx fuel,
    Link.body (h x) = b ->
    up_lays h b x cx frames ->
    length frames < fuel ->
    parent_chain fuel h x = Some (x :: map fid frames).
Proof.
  induction frames as [|F rest IH]; intros x cx fuel Hb Hup Hf;
    (destruct fuel as [|fuel]; [simpl in Hf; lia|]); simpl in *.
  - unfold is_root in Hup. destruct (Link.parent (h x)); [|reflexivity].
    apply ptr_eqb_false in Hup. rewrite Hup. reflexivity.
  - destruct Hup as (Hp & Hbp & _ & Hup).
    rewrite Hp, Hbp, Hb, ptr_eqb_refl.
    rewrite (IH _ _ fuel Hbp Hup) by lia. reflexivity.
Qed.

(** The first entries of the upward walk are the ancestors themselves. *)
Lemma up_part_chain :
  forall frames rest,
    firstn (length frames) (up_part frames ++ rest) = map fid frames.
Proof.
  induction frames as [|F frames IH]; intros rest; [reflexivity|].
  simpl. f_equal. rewrite <- app_assoc. apply IH.
Qed.

(** ** [find] on a mechanism *)

(** What [find] returns for a link [x] with the forest [cx] below it and
    the ancestors [frames] above it. *)
Lemma find_located h x cx frames :
  lays h (Link.body (h x)) (Some x) cx (Link.child (h x)) ->
  up_lays h (Link.body (h x)) x cx frames ->
  NoDup (x :: up_part frames ++ preorder cx) ->
  exists n, forall fuel down t0,
    n <= fuel ->
    find fuel h x true down t0 =
    Some (mkLinkTraverse
            (x :: up_part frames ++ (if down then preorder cx else []))
            (Z.of_nat (length frames))).
Proof.
  intros Hl Hup Hnd.
  destruct (traverse_up h _ frames x cx eq_refl Hl Hup Hnd) as [n Hn].
  exists n. intros fuel down t0 Hf. unfold find.
  rewrite Hn by assumption. rewrite skip_None. reflexivity.
Qed.

Lemma fork_mechanism : mechanism fork_heap 0 fork_forest.
Proof.
  unfold mechanism, is_root. simpl. repeat split; trivial.
  repeat constructor; simpl; intuition discriminate.
Qed.

(** C1: on a tree-structured mechanism, [find] from any of its links with
    both directions enabled returns, given enough fuel, a sequence that is a
    permutation without repetition of the links of the mechanism and that
    starts with the reference link. *)
Theorem find_covers_mechanism (h : Heap) (r : LinkId) (c : forest)
    (x : LinkId) (t0 : LinkTraverse) :
  mechanism h r c ->
  In x (r :: preorder c) ->
  exists n, forall fuel, n <= fuel ->
    exists t,
      find fuel h x true true t0 = Some t /\
      Permutation (links_ t) (r :: preorder c) /\
      NoDup (links_ t) /\
      nth_error (links_ t) 0 = Some x.
Proof.
  intros Hm Hin.
  destruct (locate_mechanism h r c x Hm Hin)
    as (cx & frames & Hl & Hup & Hp & _).
  assert (Hnd : NoDup (x :: up_part frames ++ preorder cx)).
  { apply Permutation_NoDup with (l := r :: preorder c).
    - symmetry. exact Hp.
    - apply Hm. }
  destruct (find_located h x cx frames Hl Hup Hnd) as [n Hn].
  exists n. intros fuel Hf. eexists. split; [apply Hn; exact Hf|].
  simpl. auto.
Qed.

Lemma find_covers_mechanism_witness :
  exists n, forall fuel, n <= fuel ->
    exists t,
      find fuel fork_heap 3 true true empty_traverse = Some t /\
      Permutation (links_ t) (0 :: preorder fork_forest) /\
      NoDup (links_ t) /\
      nth_error (links_ t) 0 = Some 3.
Proof.
  apply (find_covers_mechanism fork_heap 0 fork_forest 3 empty_traverse).
  - exact fork_mechanism.
  - simpl. tauto.
Defined.

(** C2: on a tree-structured mechanism, [find] with [doUpward] leaves in
    [numUpwardConnections] the number of parent pointers on the path from
    the reference link to the root of the mechanism; the path ends at the
    root and fills the entries [0..numUpwardConnections] of the sequence. *)
Theorem find_upward_connections (h : Heap) (r : LinkId) (c : forest)
    (x : LinkId) (doDownward : bool) (t0 : LinkTraverse) :
  mechanism h r c ->
  In x (r :: preorder c) ->
  exists n, forall fuel, n <= fuel ->
    exists t chain,
      find fuel h x true doDownward t0 = Some t /\
      parent_chain fuel h x = Some chain /\
      last chain x = r /\
      numUpwardConnections t = (Z.of_nat (length chain) - 1)%Z /\
      firstn (length chain) (links_ t) = chain.
Proof.
  intros Hm Hin.
  destruct (locate_mechanism h r c x Hm Hin)
    as (cx & frames & Hl & Hup & Hp & Hlast).
  assert (Hnd : NoDup (x :: up_part frames ++ preorder cx)).
  { apply Permutation_NoDup with (l := r :: preorder c).
    - symmetry. exact Hp.
    - apply Hm. }
  destruct (find_located h x cx frames Hl Hup Hnd) as [n Hn].
  exists (Nat.max n (S (length frames))). intros fuel Hf.
  exists (mkLinkTraverse
            (x :: up_part frames ++ (if doDownward then preorder cx else []))
            (Z.of_nat (length frames))), (x :: map fid frames).
  split; [apply Hn; lia|].
  split; [apply (parent_chain_up h _ frames x cx fuel eq_refl Hup); lia|].
  split; [rewrite last_cons; exact Hlast|].
  cbn [links_ numUpwardConnections length firstn].
  rewrite length_map. split; [lia|].
  f_equal. apply up_part_chain.
Qed.

Lemma find_upward_connections_witness :
  exists n, forall fuel, n <= fuel ->
    exists t chain,
      find fuel fork_heap 3 true true empty_traverse = Some t /\
      parent_chain fuel fork_heap 3 = Some chain /\
      last chain 3 = 0 /\
      numUpwardConnections t = (Z.of_nat (length chain) - 1)%Z /\
      firstn (length chain) (links_ t) = chain.
Proof.
  apply (find_upward_connections fork_heap 0 fork_forest 3 true
           empty_traverse).
  - exact fork_mechanism.
  - simpl. tauto.
Defined.

(** C5, as the code has it: the upward call of [traverse] passes [true]
    for [doDownward], so with [doUpward] alone [find] still walks down from
    every ancestor.  The sequence is the one of [find] with both flags
    without the links below the reference link: it starts with the parent
    chain and goes on with the other subtrees of the ancestors. *)
Theorem find_upward_only (h : Heap) (r : LinkId) (c : forest)
    (x : LinkId) (t0 : LinkTraverse) :
  mechanism h r c ->
  In x (r :: preorder c) ->
  exists n, forall fuel, n <= fuel ->
    exists tu tb chain cx,
      find fuel h x true false t0 = Some tu /\
      find fuel h x true true t0 = Some tb /\
      lays h (Link.body (h x)) (Some x) cx (Link.child (h x)) /\
      links_ tb = links_ tu ++ preorder cx /\
      numUpwardConnections tu = numUpwardConnections tb /\
      Permutation (links_ tb) (r :: preorder c) /\
      parent_chain fuel h x = Some chain /\
      firstn (length chain) (links_ tu) = chain.
Proof.
  intros Hm Hin.
  destruct (locate_mechanism h r c x Hm Hin)
    as (cx & frames & Hl & Hup & Hp & Hlast).
  assert (Hnd : NoDup (x :: up_part frames ++ preorder cx)).
  { apply Permutation_NoDup with (l := r :: preorder c).
    - symmetry. exact Hp.
    - apply Hm. }
  destruct (find_located h x cx frames Hl Hup Hnd) as [n Hn].
  exists (Nat.max n (S (length frames))). intros fuel Hf.
  exists (mkLinkTraverse (x :: up_part frames ++ [])
                         (Z.of_nat (length frames))),
         (mkLinkTraverse (x :: up_part frames ++ preorder cx)
                         (Z.of_nat (length frames))),
         (x :: map fid frames), cx.
  split; [apply (Hn fuel false); lia|].
  split; [apply (Hn fuel true); lia|].
  split; [exact Hl|].
  cbn [links_ numUpwardConnections length firstn].
  split; [rewrite app_nil_r; reflexivity|].
  split; [reflexivity|].
  split; [exact Hp|].
  split; [apply (parent_chain_up h _ frames x cx fuel eq_refl Hup); lia|].
  rewrite length_map. f_equal. apply up_part_chain.
Qed.

Lemma find_upward_only_witness :
  exists n, forall fuel, n <= fuel ->
    exists tu tb chain cx,
      find fuel fork_heap 1 true false empty_traverse = Some tu /\
      find fuel fork_heap 1 true true empty_traverse = Some tb /\
      lays fork_heap (Link.body (fork_heap 1)) (Some 1) cx
           (Link.child (fork_heap 1)) /\
      links_ tb = links_ tu ++ preorder cx /\
      numUpwardConnections tu = numUpwardConnections tb /\
      Permutation (links_ tb) (0 :: preorder fork_forest) /\
      parent_chain fuel fork_heap 1 = Some chain /\
      firstn (length chain) (links_ tu) = chain.
Proof.
  apply (find_upward_only fork_heap 0 fork_forest 1 empty_traverse).
  - exact fork_mechanism.
  - simpl. tauto.
Defined.

(** C5 fails as stated: in the mechanism [0 -> 1, 2], [1 -> 3], [find] from
    [1] with [doUpward] alone returns [1; 0; 2]: the child [2] of the
    ancestor [0] is included, and the sequence is not the parent chain
    [1; 0]. *)
Lemma find_upward_only_not_chain :
  mechanism fork_heap 0 fork_forest /\
  find 5 fork_heap 1 true false empty_traverse =
    Some (mkLinkTraverse [1; 0; 2] 1) /\
  parent_chain 5 fork_heap 1 = Some [1; 0] /\
  Link.parent (fork_heap 2) = Some 0 /\
  [1; 0; 2] <> [1; 0].
Proof.
  split; [exact fork_mechanism|].
  repeat split; try reflexivity. discriminate.
Qed.

(** ** [remove] *)

Lemma remove_search_absent (link : LinkId) :
  forall l i, ~ In link l -> remove_search link l i = (-1)%Z.
Proof.
  induction l as [|x l IH]; intros i H; simpl; [reflexivity|].
  destruct (Nat.eqb x link) eqn:E.
  - apply Nat.eqb_eq in E. simpl in H. tauto.
  - apply IH. simpl in H. tauto.
Qed.

Lemma remove_search_first (link : LinkId) :
  forall l k i,
    nth_error l k = Some link ->
    ~ In link (firstn k l) ->
    remove_search link l i = (i + Z.of_nat k)%Z.
Proof.
  induction l as [|x l IH]; intros k i Hn Hf.
  - destruct k; discriminate.
  - destruct k as [|k]; simpl in *.
    + injection Hn as ->. rewrite Nat.eqb_refl. lia.
    + destruct (Nat.eqb x link) eqn:E.
      * apply Nat.eqb_eq in E. tauto.
      * rewrite (IH k) by tauto. lia.
Qed.

Lemma first_occurrence (link : LinkId) :
  forall l : list LinkId, In link l ->
    exists k, nth_error l k = Some link /\ ~ In link (firstn k l).
Proof.
  induction l as [|x l IH]; intros H; [destruct H|].
  destruct (Nat.eq_dec x link) as [->|Hne].
  - exists 0. simpl. tauto.
  - destruct H as [H|H]; [contradiction|].
    destruct (IH H) as (k & Hk & Hf).
    exists (S k). simpl. tauto.
Qed.

Lemma erase_firstn_skipn :
  forall l k, erase l k = firstn k l ++ skipn (S k) l.
Proof.
  induction l as [|x l IH]; intros k.
  - destruct k; reflexivity.
  - destruct k as [|k]; simpl; [reflexivity|]. f_equal. apply IH.
Qed.

Lemma remove_absent link t :
  ~ In link (links_ t) -> remove link t = (false, t).
Proof.
  intros H. unfold remove. rewrite remove_search_absent by assumption.
  reflexivity.
Qed.

Lemma remove_present link t k :
  nth_error (links_ t) k = Some link ->
  ~ In link (firstn k (links_ t)) ->
  remove link t =
  (true,
   mkLinkTraverse
     (firstn k (links_ t) ++ skipn (S k) (links_ t))
     (if (Z.of_nat k <=? numUpwardConnections t)%Z
      then numUpwardConnections t - 1
      else numUpwardConnections t)%Z).
Proof.
  intros Hn Hf. unfold remove.
  rewrite (remove_search_first link _ k 0 Hn Hf). cbn [Z.add].
  replace (0 <=? Z.of_nat k)%Z with true by (symmetry; apply Z.leb_le; lia).
  rewrite Nat2Z.id, <- erase_firstn_skipn.
  destruct (Z.of_nat k <=? numUpwardConnections t)%Z; reflexivity.
Qed.

(** C6: [remove] returns [true] exactly when the link is in the sequence;
    when it is not, the traversal is returned as it was, with [false]; when
    its first occurrence is at index [k], that one entry is erased and
    [numUpwardConnections] is decremented exactly when
    [k <= numUpwardConnections]. *)
Theorem remove_spec (link : LinkId) (t : LinkTraverse) :
  (fst (remove link t) = true <-> In link (links_ t)) /\
  (~ In link (links_ t) -> remove link t = (false, t)) /\
  (forall k,
     nth_error (links_ t) k = Some link ->
     ~ In link (firstn k (links_ t)) ->
     remove link t =
     (true,
      mkLinkTraverse
        (firstn k (links_ t) ++ skipn (S k) (links_ t))
        (if (Z.of_nat k <=? numUpwardConnections t)%Z
         then numUpwardConnections t - 1
         else numUpwardConnections t)%Z) /\
     length (links_ (snd (remove link t))) = length (links_ t) - 1).
Proof.
  split; [|split].
  - split.
    + intros H. destruct (in_dec Nat.eq_dec link (links_ t)) as [Hi|Hi];
        [assumption|].
      rewrite (remove_absent link t Hi) in H. discriminate.
    + intros H. destruct (first_occurrence link _ H) as (k & Hk & Hf).
      rewrite (remove_present link t k Hk Hf). reflexivity.
  - apply remove_absent.
  - intros k Hk Hf. split; [apply remove_present; assumption|].
    rewrite (remove_present link t k Hk Hf). cbn [snd links_].
    assert (Hlt : k < length (links_ t)).
    { apply nth_error_Some. congruence. }
    rewrite length_app, length_firstn, length_skipn. lia.
Qed.

Lemma remove_spec_witness :
  remove 1 (mkLinkTraverse [3; 1; 0; 2] 1) =
    (true, mkLinkTraverse [3; 0; 2] 0) /\
  remove 0 (mkLinkTraverse [3; 1; 0; 2] 1) =
    (true, mkLinkTraverse [3; 1; 2] 1) /\
  remove 5 (mkLinkTraverse [3; 1; 0; 2] 1) =
    (false, mkLinkTraverse [3; 1; 0; 2] 1).
Proof.
  split; [|split].
  - apply (proj2 (proj2 (remove_spec 1 (mkLinkTraverse [3; 1; 0; 2] 1))) 1).
    + reflexivity.
    + simpl. intuition discriminate.
  - apply (proj2 (proj2 (remove_spec 0 (mkLinkTraverse [3; 1; 0; 2] 1))) 2).
    + reflexivity.
    + simpl. intuition discriminate.
  - apply (proj1 (proj2 (remove_spec 5 (mkLinkTraverse [3; 1; 0; 2] 1)))).
    simpl. intuition discriminate.
Defined.

(** C10: when [numUpwardConnections] is 0 and the front entry is [link],
    [remove link] returns [true], erases the front entry and leaves
    [numUpwardConnections] at -1. *)
Theorem remove_front_negative (link : LinkId) (rest : list LinkId) :
  remove link (mkLinkTraverse (link :: rest) 0) =
  (true, mkLinkTraverse rest (-1)).
Proof.
  unfold remove. cbn [links_ remove_search]. rewrite Nat.eqb_refl.
  reflexivity.
Qed.

(** ** [findRootAdjacentLink] on a mechanism *)

Lemma findRootAdjacentLink_S fuel h link prev root isUpward :
  findRootAdjacentLink (S fuel) h link prev root isUpward =
  if Nat.eqb link root then Some (prev, isUpward)
  else
    r <- (if isUpward then
            match Link.parent (h link) with
            | Some parent =>
              if negb (ptr_eqb (Some parent) prev)
              then findRootAdjacentLink fuel h parent (Some link) root
                     isUpward
              else Some (None, isUpward)
            | None => Some (None, isUpward)
            end
          else Some (None, isUpward)) ;;
    match r with
    | (Some found, isUpward) => Some (Some found, isUpward)
    | (None, _) =>
      findRootAdjacentLink_children fuel h link (Link.child (h link))
        prev root false
    end.
Proof. reflexivity. Qed.

Lemma findRootAdjacentLink_children_S fuel h link c prev root isUpward :
  findRootAdjacentLink_children (S fuel) h link (Some c) prev root isUpward =
  (r <- (if negb (ptr_eqb (Some c) prev)
         then findRootAdjacentLink fuel h c (Some link) root isUpward
         else Some (None, isUpward)) ;;
   match r with
   | (Some found, isUpward) => Some (Some found, isUpward)
   | (None, isUpward) =>
     findRootAdjacentLink_children fuel h link (Link.sibling (h c))
       prev root isUpward
   end).
Proof. reflexivity. Qed.

Lemma findRootAdjacentLink_children_None fuel h link prev root isUpward :
  findRootAdjacentLink_children fuel h link None prev root isUpward =
  Some (None, isUpward).
Proof. destruct fuel; reflexivity. Qed.

Lemma NoDup_preorder_Cons p i c s :
  NoDup (p :: preorder (Cons i c s)) ->
  NoDup (i :: preorder c) /\ NoDup (p :: preorder s) /\
  ~ In p (roots c) /\ p <> i.
Proof.
  intros H. simpl in H.
  assert (Hc : NoDup (i :: preorder c)).
  { inversion H as [|? ? _ H']. inversion H' as [|? ? Hi Hcs].
    constructor.
    - intros Hin. apply Hi. apply in_or_app. now left.
    - eapply NoDup_app_remove_r. exact Hcs. }
  inversion H as [|? ? Hp H']. inversion H' as [|? ? Hi Hcs]. subst.
  repeat split.
  - exact Hc.
  - constructor.
    + intros Hin. apply Hp. simpl. right. apply in_or_app. now right.
    + eapply NoDup_app_remove_l. exact Hcs.
  - intros Hin. apply Hp. simpl. right. apply in_or_app. left.
    now apply roots_preorder.
  - intros ->. apply Hp. now left.
Qed.

(** The loop over the sibling chain below [p] searches the forest in
    preorder. *)
Lemma findRootAdjacentLink_children_lays h b F :
  forall f p first prev fuel,
    lays h b (Some p) f first ->
    NoDup (p :: preorder f) ->
    need f <= fuel ->
    findRootAdjacentLink_children fuel h p first prev F false =
    Some (parent_in p (skip prev f) F, false).
Proof.
  induction f as [|i c IHc s IHs]; intros p first prev fuel Hl Hnd Hf.
  - simpl in Hl. subst first.
    apply findRootAdjacentLink_children_None.
  - simpl in Hl. destruct Hl as (-> & Hp & Hb & Hc & Hs).
    change (S (Nat.max (S (need c)) (need s)) <= fuel) in Hf.
    destruct (NoDup_preorder_Cons p i c s Hnd) as (Hndc & Hnds & Hpc & Hpi).
    destruct fuel as [|fuel]; [lia|].
    rewrite findRootAdjacentLink_children_S, skip_Cons.
    destruct (ptr_eqb (Some i) prev) eqn:E; cbn [negb bind].
    + apply IHs; [assumption|assumption|lia].
    + destruct fuel as [|fuel]; [lia|].
      rewrite findRootAdjacentLink_S. cbn [parent_in].
      destruct (Nat.eqb i F) eqn:EF; [reflexivity|].
      cbn [bind].
      rewrite (IHc i _ (Some p) fuel Hc Hndc) by lia.
      rewrite (skip_absent p c Hpc).
      destruct (parent_in i c F) as [q|]; [reflexivity|].
      apply IHs; [assumption|assumption|lia].
Qed.

Lemma NoDup_cons_app_r (x : LinkId) (l r : list LinkId) :
  NoDup (x :: l ++ r) -> NoDup (x :: r).
Proof.
  intros H. inversion H as [|? ? Hx Hlr]. constructor.
  - intros Hin. apply Hx. apply in_or_app. now right.
  - eapply NoDup_app_remove_l. exact Hlr.
Qed.

Lemma adjacent_up_nil x cx prev F :
  adjacent_up x cx prev [] F =
  if Nat.eqb x F then (prev, true)
  else (parent_in x (skip prev cx) F, false).
Proof. reflexivity. Qed.

Lemma adjacent_up_cons x cx prev G rest F :
  adjacent_up x cx prev (G :: rest) F =
  if Nat.eqb x F then (prev, true)
  else match adjacent_up (fid G) (plug G x cx) (Some x) rest F with
       | (Some y, u) => (Some y, u)
       | (None, _) => (parent_in x (skip prev cx) F, false)
       end.
Proof. reflexivity. Qed.

(** Started at a link [x] of a mechanism whose root has no parent, with
    [isUpward] set, [findRootAdjacentLink] computes [adjacent_up]. *)
Lemma findRootAdjacentLink_up h b :
  forall frames x cx,
    lays h b (Some x) cx (Link.child (h x)) ->
    up_lays h b x cx frames ->
    Link.parent (h (last (map fid frames) x)) = None ->
    NoDup (x :: up_part frames ++ preorder cx) ->
    exists n, forall fuel prev F,
      n <= fuel ->
      (forall p, Link.parent (h x) = Some p -> prev <> Some p) ->
      findRootAdjacentLink fuel h x prev F true =
      Some (adjacent_up x cx prev frames F).
Proof.
  induction frames as [|G rest IH]; intros x cx Hl Hup Htop Hnd.
  - exists (S (need cx)). intros fuel prev F Hf Hprev.
    destruct fuel as [|fuel]; [lia|].
    rewrite findRootAdjacentLink_S, adjacent_up_nil.
    destruct (Nat.eqb x F); [reflexivity|].
    simpl in Htop. rewrite Htop. cbn [bind].
    apply (findRootAdjacentLink_children_lays h b F cx x _ prev fuel Hl);
      [exact Hnd|lia].
  - simpl in Hup. destruct Hup as (Hp & Hbp & Hlp & Hup).
    assert (Hnd' : NoDup (fid G :: up_part rest ++ preorder (plug G x cx))).
    { eapply Permutation_NoDup; [|exact Hnd].
      unfold plug. rewrite preorder_fapp. simpl. perm_count. }
    assert (Htop' : Link.parent (h (last (map fid rest) (fid G))) = None).
    { rewrite <- Htop. simpl map. now rewrite last_cons. }
    destruct (IH (fid G) (plug G x cx) Hlp Hup Htop' Hnd') as [n1 Hn1].
    exists (S (Nat.max n1 (need cx))).
    intros fuel prev F Hf Hprev.
    destruct fuel as [|fuel]; [lia|].
    rewrite findRootAdjacentLink_S, adjacent_up_cons.
    destruct (Nat.eqb x F); [reflexivity|].
    rewrite Hp.
    assert (E : ptr_eqb (Some (fid G)) prev = false).
    { apply ptr_eqb_false. intros <-. now apply (Hprev (fid G)). }
    rewrite E. cbn [negb].
    rewrite Hn1.
    + destruct (adjacent_up (fid G) (plug G x cx) (Some x) rest F)
        as [[y|] u]; cbn [bind]; [reflexivity|].
      apply (findRootAdjacentLink_children_lays h b F cx x _ prev fuel Hl);
        [|lia].
      apply NoDup_cons_app_r with (l := up_part (G :: rest)). exact Hnd.
    + lia.
    + intros p' Hp' [= <-].
      destruct rest as [|G2 rest2].
      * simpl in Htop'. congruence.
      * simpl in Hup. destruct Hup as (Hp2 & _).
        rewrite Hp2 in Hp'. injection Hp' as Hx.
        inversion Hnd as [|? ? Hnx _]. apply Hnx. simpl. right. left.
        exact Hx.
Qed.

(** ** What the search finds *)

Lemma lays_parents_ok h b :
  forall f p first, lays h b (Some p) f first -> parents_ok h p f.
Proof.
  induction f as [|i c IHc s IHs]; intros p first H; simpl in *; [trivial|].
  destruct H as (_ & Hp & _ & Hc & Hs). eauto.
Qed.

Lemma parents_ok_skip h prev :
  forall f p, parents_ok h p f -> parents_ok h p (skip prev f).
Proof.
  induction f as [|i c IHc s IHs]; intros p H; [exact H|].
  rewrite skip_Cons. simpl in H. destruct H as (Hp & Hc & Hs).
  destruct (ptr_eqb (Some i) prev); simpl; auto.
Qed.

Lemma parent_in_found h F :
  forall f p,
    parents_ok h p f -> In F (preorder f) ->
    exists N, parent_in p f F = Some N /\ Link.parent (h F) = Some N.
Proof.
  induction f as [|i c IHc s IHs]; intros p Hok Hin; [destruct Hin|].
  simpl in Hok. destruct Hok as (Hp & Hc & Hs). cbn [parent_in].
  destruct (Nat.eqb i F) eqn:E.
  - apply Nat.eqb_eq in E. subst i. eauto.
  - apply Nat.eqb_neq in E. simpl in Hin.
    destruct Hin as [Hin|Hin]; [contradiction|].
    destruct (in_dec Nat.eq_dec F (preorder c)) as [Hic|Hic].
    + destruct (IHc i Hc Hic) as (N & HN & HpN). rewrite HN. eauto.
    + apply in_app_or in Hin. destruct Hin as [Hin|Hin]; [contradiction|].
      destruct (parent_in i c F) as [q|] eqn:Eq.
      * destruct (IHs p Hs Hin) as (N & _ & HpN).
        exists q. split; [reflexivity|].
        (* the first hit below [i] would be a link of [c] *)
        exfalso. clear - Eq Hic. revert i q Eq Hic.
        induction c as [|j cc IHcc ss IHss]; intros i q Eq Hic;
          [discriminate|].
        cbn [parent_in] in Eq. simpl in Hic.
        destruct (Nat.eqb j F) eqn:Ej.
        -- apply Nat.eqb_eq in Ej. tauto.
        -- rewrite in_app_iff in Hic.
           destruct (parent_in j cc F) eqn:Ecc.
           ++ apply (IHcc j l Ecc). tauto.
           ++ apply (IHss i q Eq). tauto.
      * apply IHs; assumption.
Qed.

Lemma parent_in_absent F :
  forall f p, ~ In F (preorder f) -> parent_in p f F = None.
Proof.
  induction f as [|i c IHc s IHs]; intros p H; [reflexivity|].
  simpl in H. rewrite in_app_iff in H. cbn [parent_in].
  destruct (Nat.eqb i F) eqn:E.
  - apply Nat.eqb_eq in E. tauto.
  - rewrite IHc by tauto. apply IHs. tauto.
Qed.

Lemma map_fid_up_part frames y :
  In y (map fid frames) -> In y (up_part frames).
Proof.
  induction frames as [|G rest IH]; simpl; [tauto|].
  intros [H|H]; [now left|right]. apply in_or_app. left. auto.
Qed.

(** The result of the search from [x] for another link [F]: the link below
    [F] on the way up from [x] when [F] is an ancestor of [x]; else the
    parent of [F] when [F] is met on the way back; else nothing. *)
Lemma adjacent_up_spec h b F :
  forall frames x cx prev,
    lays h b (Some x) cx (Link.child (h x)) ->
    up_lays h b x cx frames ->
    NoDup (x :: up_part frames ++ preorder cx) ->
    x <> F ->
    (In F (map fid frames) ->
     exists N, adjacent_up x cx prev frames F = (Some N, true) /\
               Link.parent (h N) = Some F /\
               In N (x :: map fid frames)) /\
    (~ In F (map fid frames) ->
     In F (up_part frames ++ preorder (skip prev cx)) ->
     exists N, adjacent_up x cx prev frames F = (Some N, false) /\
               Link.parent (h F) = Some N) /\
    (~ In F (up_part frames ++ preorder (skip prev cx)) ->
     adjacent_up x cx prev frames F = (None, false)).
Proof.
  induction frames as [|G rest IH]; intros x cx prev Hl Hup Hnd Hx.
  - rewrite adjacent_up_nil.
    apply Nat.eqb_neq in Hx. rewrite Hx.
    assert (Hok : parents_ok h x (skip prev cx)).
    { apply parents_ok_skip. eapply lays_parents_ok. exact Hl. }
    split; [intros []|]. split.
    + intros _ Hin. simpl in Hin.
      destruct (parent_in_found h F _ x Hok Hin) as (N & HN & HpN).
      exists N. rewrite HN. auto.
    + intros Hin. simpl in Hin. now rewrite parent_in_absent.
  - rewrite adjacent_up_cons.
    pose proof Hx as Hxb. apply Nat.eqb_neq in Hxb. rewrite Hxb.
    simpl in Hup. destruct Hup as (Hp & Hbp & Hlp & Hup).
    assert (Hnd' : NoDup (fid G :: up_part rest ++ preorder (plug G x cx))).
    { eapply Permutation_NoDup; [|exact Hnd].
      unfold plug. rewrite preorder_fapp. simpl. perm_count. }
    assert (Hsk : skip (Some x) (plug G x cx) = fapp (fleft G) (fright G)).
    { apply skip_plug; intros Hin; apply roots_preorder in Hin;
        inversion Hnd as [|? ? Hnx _]; subst; apply Hnx; simpl;
        right; rewrite !in_app_iff; tauto. }
    assert (Hok : parents_ok h x (skip prev cx)).
    { apply parents_ok_skip. eapply lays_parents_ok. exact Hl. }
    destruct (Nat.eq_dec (fid G) F) as [HG|HG].
    + (* the parent of [x] is [F] *)
      assert (E : adjacent_up (fid G) (plug G x cx) (Some x) rest F =
                  (Some x, true)).
      { destruct rest; simpl; rewrite HG, Nat.eqb_refl; reflexivity. }
      rewrite E. split; [|split].
      * intros _. exists x. rewrite <- HG. simpl. auto.
      * intros Hn. exfalso. apply Hn. simpl. now left.
      * intros Hn. exfalso. apply Hn. simpl. now left.
    + destruct (IH (fid G) (plug G x cx) (Some x) Hlp Hup Hnd' HG)
        as (IHa & IHb & IHc).
      rewrite Hsk, preorder_fapp in IHb, IHc.
      split; [|split].
      * intros [Hin|Hin]; [contradiction|].
        destruct (IHa Hin) as (N & HN & HpN & HiN).
        exists N. rewrite HN. simpl. auto.
      * intros Hn Hin. simpl in Hn.
        destruct (in_dec Nat.eq_dec F
                    (up_part rest ++ preorder (fleft G) ++ preorder (fright G)))
          as [Hi|Hi].
        -- destruct (IHb (fun H => Hn (or_intror H)) Hi) as (N & HN & HpN).
           exists N. rewrite HN. auto.
        -- rewrite (IHc Hi).
           assert (Hin' : In F (preorder (skip prev cx))).
           { simpl in Hin. repeat rewrite in_app_iff in Hin.
             repeat rewrite in_app_iff in Hi.
             destruct Hin as [Hin|Hin]; [contradiction|]. tauto. }
           destruct (parent_in_found h F _ x Hok Hin') as (N & HN & HpN).
           exists N. rewrite HN. auto.
      * intros Hn. simpl in Hn. rewrite !in_app_iff in Hn.
        rewrite IHc by (rewrite !in_app_iff; tauto).
        rewrite parent_in_absent by tauto. reflexivity.
Qed.

Lemma nth_parent_chain h b :
  forall frames x cx k,
    up_lays h b x cx frames ->
    Link.parent (h (last (map fid frames) x)) = None ->
    nth_parent h k x = nth_error (x :: map fid frames) k.
Proof.
  induction frames as [|G rest IH]; intros x cx k Hup Htop.
  - simpl in Htop. destruct k as [|k]; simpl; [reflexivity|].
    rewrite Htop. now destruct k.
  - simpl in Hup. destruct Hup as (Hp & _ & _ & Hup).
    destruct k as [|k]; [reflexivity|].
    cbn [nth_parent]. rewrite Hp.
    rewrite (IH (fid G) (plug G x cx) k Hup).
    + reflexivity.
    + rewrite <- Htop. simpl map. now rewrite last_cons.
Qed.

(** In a mechanism no two links are each other's parent. *)
Lemma mechanism_no_two_cycle h r c F N :
  mechanism h r c ->
  Link.parent (h r) = None ->
  In F (r :: preorder c) ->
  Link.parent (h F) = Some N ->
  Link.parent (h N) <> Some F.
Proof.
  intros Hm Hr Hin HF HN.
  destruct (locate_mechanism h r c F Hm Hin)
    as (cx & frames & Hl & Hup & Hp & Hlast).
  assert (Hnd : NoDup (F :: up_part frames ++ preorder cx)).
  { apply Permutation_NoDup with (l := r :: preorder c).
    - symmetry. exact Hp.
    - apply Hm. }
  destruct frames as [|G1 rest].
  - simpl in Hlast. subst r. congruence.
  - simpl in Hup. destruct Hup as (Hp1 & _ & _ & Hup).
    rewrite Hp1 in HF. injection HF as <-.
    destruct rest as [|G2 rest].
    + simpl in Hlast. subst r. congruence.
    + simpl in Hup. destruct Hup as (Hp2 & _).
      rewrite Hp2 in HN. injection HN as HN.
      inversion Hnd as [|? ? Hx _]. apply Hx. simpl. right. left. exact HN.
Qed.

Lemma nth_parent_step h :
  forall j x N F,
    nth_parent h j x = Some N ->
    Link.parent (h N) = Some F ->
    nth_parent h (S j) x = Some F.
Proof.
  induction j as [|j IH]; intros x N F Hj HN.
  - simpl in Hj. injection Hj as ->. simpl. now rewrite HN.
  - simpl in Hj. cbn [nth_parent].
    destruct (Link.parent (h x)) as [p|]; [|discriminate].
    exact (IH p N F Hj HN).
Qed.

Lemma chain_NoDup :
  forall frames tail,
    NoDup (up_part frames ++ tail) -> NoDup (map fid frames).
Proof.
  induction frames as [|G rest IH]; intros tail H; [constructor|].
  simpl in H. rewrite <- !app_assoc in H.
  inversion H as [|? ? Hn Hrest]. subst. simpl. constructor.
  - intros Hin. apply Hn. apply in_or_app. left.
    now apply map_fid_up_part.
  - exact (IH _ Hrest).
Qed.

Lemma NoDup_nth_error_eq (l : list LinkId) (i j : nat) (x : LinkId) :
  NoDup l -> nth_error l i = Some x -> nth_error l j = Some x -> i = j.
Proof.
  intros Hnd Hi Hj. apply (proj1 (NoDup_nth_error l) Hnd).
  - apply nth_error_Some. congruence.
  - congruence.
Qed.

(** In a mechanism the link next to [front] toward [target] is unique. *)
Lemma toward_unique h r c front target N N' :
  mechanism h r c ->
  Link.parent (h r) = None ->
  In target (r :: preorder c) ->
  toward h front target N ->
  toward h front target N' ->
  N' = N.
Proof.
  intros Hm Hr Hin H1 H2.
  destruct (locate_mechanism h r c target Hm Hin)
    as (cx & frames & Hl & Hup & Hp & Hlast).
  assert (Hnd : NoDup (target :: map fid frames)).
  { assert (Hnd : NoDup (target :: up_part frames ++ preorder cx)).
    { apply Permutation_NoDup with (l := r :: preorder c).
      - symmetry. exact Hp.
      - apply Hm. }
    inversion Hnd as [|? ? Hx Hrest]. subst. constructor.
    - intros Hi. apply Hx. apply in_or_app. left.
      now apply map_fid_up_part.
    - exact (chain_NoDup _ _ Hrest). }
  assert (Htop : Link.parent (h (last (map fid frames) target)) = None)
    by (rewrite Hlast; exact Hr).
  assert (Hchain : forall k,
             nth_parent h k target = nth_error (target :: map fid frames) k).
  { intros k. exact (nth_parent_chain h _ frames target cx k Hup Htop). }
  destruct H1 as [(_ & (j & Hj) & HN)|(Hno & HN)],
           H2 as [((k' & Hk') & (j' & Hj') & HN')|(Hno' & HN')].
  - pose proof (nth_parent_step h j target N front Hj HN) as E.
    pose proof (nth_parent_step h j' target N' front Hj' HN') as E'.
    rewrite Hchain in E, E'.
    pose proof (NoDup_nth_error_eq _ _ _ _ Hnd E E') as Hjj.
    injection Hjj as ->. congruence.
  - exfalso. apply (Hno' j).
    exact (nth_parent_step h j target N front Hj HN).
  - exfalso. exact (Hno k' Hk').
  - congruence.
Qed.

Lemma prepend_unfold fuel h link F rest U :
  prependRootAdjacentLinkToward fuel h link (mkLinkTraverse (F :: rest) U) =
  (r <- findRootAdjacentLink fuel h link None F true ;;
   match r with
   | (Some N, isUpward) =>
     Some (Some N,
           if isUpward
           then mkLinkTraverse (N :: F :: rest) (U + 1)
           else mkLinkTraverse (N :: F :: rest) U)
   | (None, _) => Some (None, mkLinkTraverse (F :: rest) U)
   end).
Proof.
  unfold prependRootAdjacentLinkToward. cbn [links_ numUpwardConnections].
  destruct (findRootAdjacentLink fuel h link None F true)
    as [[[N|] [|]]|]; reflexivity.
Qed.

(** C9: [prependRootAdjacentLinkToward] returns null and leaves the
    traversal as it was when the traversal is empty, when the target is the
    front entry, and when the front entry is not connected to the target.
    For a target and a front entry that are different links of one
    mechanism it returns the one link next to the front entry on the tree
    path toward the target, puts it in front of the sequence, and increments
    [numUpwardConnections] exactly when the old front entry is the parent
    of the returned link (the step from the new front entry to the old one
    is an upward connection). *)
Theorem prependRootAdjacentLinkToward_spec :
  (forall fuel h target t,
     links_ t = [] ->
     prependRootAdjacentLinkToward fuel h target t = Some (None, t)) /\
  (forall fuel h target rest U,
     prependRootAdjacentLinkToward (S fuel) h target
       (mkLinkTraverse (target :: rest) U) =
     Some (None, mkLinkTraverse (target :: rest) U)) /\
  (forall h r c target front rest U,
     mechanism h r c ->
     Link.parent (h r) = None ->
     In target (r :: preorder c) ->
     front <> target ->
     exists n, forall fuel, n <= fuel ->
       (~ In front (r :: preorder c) ->
        prependRootAdjacentLinkToward fuel h target
          (mkLinkTraverse (front :: rest) U) =
        Some (None, mkLinkTraverse (front :: rest) U)) /\
       (In front (r :: preorder c) ->
        exists N,
          toward h front target N /\
          (forall N', toward h front target N' -> N' = N) /\
          prependRootAdjacentLinkToward fuel h target
            (mkLinkTraverse (front :: rest) U) =
          Some (Some N,
                mkLinkTraverse (N :: front :: rest)
                  (if ptr_eqb (Link.parent (h N)) (Some front)
                   then U + 1 else U)%Z))).
Proof.
  split; [|split].
  - intros fuel h target t Ht. unfold prependRootAdjacentLinkToward.
    rewrite Ht. reflexivity.
  - intros fuel h target rest U. rewrite prepend_unfold.
    rewrite findRootAdjacentLink_S, Nat.eqb_refl. reflexivity.
  - intros h r c T F rest U Hm Hr HinT Hne.
    destruct (locate_mechanism h r c T Hm HinT)
      as (cx & frames & Hl & Hup & Hp & Hlast).
    assert (Hnd : NoDup (T :: up_part frames ++ preorder cx)).
    { apply Permutation_NoDup with (l := r :: preorder c).
      - symmetry. exact Hp.
      - apply Hm. }
    assert (Htop : Link.parent (h (last (map fid frames) T)) = None)
      by (rewrite Hlast; exact Hr).
    destruct (findRootAdjacentLink_up h _ frames T cx Hl Hup Htop Hnd)
      as [n Hn].
    assert (HTF : T <> F) by congruence.
    destruct (adjacent_up_spec h _ F frames T cx None Hl Hup Hnd HTF)
      as (Sa & Sb & Sc).
    rewrite skip_None in Sb, Sc.
    assert (Hchain : forall k,
               nth_parent h k T = nth_error (T :: map fid frames) k).
    { intros k. exact (nth_parent_chain h _ frames T cx k Hup Htop). }
    assert (unique_toward : forall N,
               toward h F T N ->
               toward h F T N /\ (forall N', toward h F T N' -> N' = N)).
    { intros N HN. split; [exact HN|]. intros N' HN'.
      exact (toward_unique h r c F T N N' Hm Hr HinT HN HN'). }
    exists n. intros fuel Hf.
    assert (Hfind : findRootAdjacentLink fuel h T None F true =
                    Some (adjacent_up T cx None frames F)).
    { apply Hn; [exact Hf|]. intros p _. discriminate. }
    split.
    + intros HnF. rewrite prepend_unfold, Hfind. cbn [bind].
      rewrite Sc; [reflexivity|].
      intros Hin. apply HnF.
      apply (Permutation_in F Hp). simpl. right. exact Hin.
    + intros HinF.
      destruct (in_dec Nat.eq_dec F (map fid frames)) as [Hanc|Hanc].
      * destruct (Sa Hanc) as (N & HN & HpN & HiN).
        exists N. apply and_assoc. split.
        -- apply unique_toward. left. split; [|split].
           ++ destruct (In_nth_error _ _ Hanc) as [k Hk].
              exists k. rewrite Hchain. exact Hk.
           ++ destruct (In_nth_error _ _ HiN) as [j Hj].
              exists j. rewrite Hchain. exact Hj.
           ++ exact HpN.
        -- rewrite prepend_unfold, Hfind, HN. cbn [bind].
           rewrite HpN, ptr_eqb_refl. reflexivity.
      * assert (Hin : In F (up_part frames ++ preorder cx)).
        { apply (Permutation_in F (Permutation_sym Hp)) in HinF.
          destruct HinF as [E|E]; [congruence|exact E]. }
        destruct (Sb Hanc Hin) as (N & HN & HpF).
        exists N. apply and_assoc. split.
        -- apply unique_toward. right. split; [|exact HpF].
           intros k Hk. apply Hanc. rewrite Hchain in Hk.
           simpl in Hk. eapply nth_error_In. exact Hk.
        -- rewrite prepend_unfold, Hfind, HN. cbn [bind].
           assert (E : ptr_eqb (Link.parent (h N)) (Some F) = false).
           { apply ptr_eqb_false.
             exact (mechanism_no_two_cycle h r c F N Hm Hr HinF HpF). }
           rewrite E. reflexivity.
Qed.

Lemma prependRootAdjacentLinkToward_spec_witness :
  exists n, forall fuel, n <= fuel ->
    (~ In 2 (0 :: preorder fork_forest) ->
     prependRootAdjacentLinkToward fuel fork_heap 3
       (mkLinkTraverse [2] 0) =
     Some (None, mkLinkTraverse [2] 0)) /\
    (In 2 (0 :: preorder fork_forest) ->
     exists N,
       toward fork_heap 2 3 N /\
       (forall N', toward fork_heap 2 3 N' -> N' = N) /\
       prependRootAdjacentLinkToward fuel fork_heap 3
         (mkLinkTraverse [2] 0) =
       Some (Some N,
             mkLinkTraverse [N; 2]
               (if ptr_eqb (Link.parent (fork_heap N)) (Some 2)
                then (0 + 1)%Z else 0%Z))).
Proof.
  apply (proj2 (proj2 prependRootAdjacentLinkToward_spec)
           fork_heap 0 fork_forest 3 2 [] 0%Z).
  - exact fork_mechanism.
  - reflexivity.
  - simpl. tauto.
  - discriminate.
Defined.

(** The search on the example: from the front entry [2] toward [3] the
    parent [0] of [2] is prepended over a downward connection; from the
    front entry [0] toward [3] the child [1] of [0] is prepended over an
    upward connection. *)
Example prepend_parent_of_front :
  prependRootAdjacentLinkToward 9 fork_heap 3 (mkLinkTraverse [2] 0) =
  Some (Some 0, mkLinkTraverse [0; 2] 0).
Proof. reflexivity. Qed.

Example prepend_child_of_front :
  prependRootAdjacentLinkToward 9 fork_heap 3 (mkLinkTraverse [0; 2] 0) =
  Some (Some 1, mkLinkTraverse [1; 0; 2] 1).
Proof. reflexivity. Qed.

(** ** Forward kinematics *)

Open Scope R_scope.

(** Down to the coordinates: vectors and matrices that are variables are
    split into their entries, the operations are computed innermost
    first. *)
Ltac split_coords :=
  repeat match goal with
         | v : Vector3 |- _ =>
           let x := fresh "x" in
           let y := fresh "y" in
           let z := fresh "z" in
           destruct v as [x y z]
         | m : Matrix3 |- _ =>
           let a := fresh "a" in let b := fresh "b" in let c := fresh "c" in
           let d := fresh "d" in let e := fresh "e" in let f := fresh "f" in
           let g := fresh "g" in let i := fresh "i" in let j := fresh "j" in
           destruct m as [a b c d e f g i j]
         end.

Ltac coords :=
  cbv beta iota zeta delta
    [AngleAxisd_inverse AngleAxisd mulMM mulMV transpose
     vadd vsub vscale vscale_r cross Identity Zero3
     vx vy vz m00 m01 m02 m10 m11 m12 m20 m21 m22].

Ltac vec_eq := split_coords; coords; f_equal; try ring.

Example find_root_and_child :
  find 3%nat quarter_turn_heap 0%nat true true empty_traverse
  = Some root_and_child.
Proof. reflexivity. Qed.

(** C3, as the code has it: in the scenario [propagate] sets the rotation
    of [linkA] to the quarter turn about the z axis, and its position to
    [p_root + R_root * b = (1, 0, 0)]: the arm is turned by the rotation of
    the parent, not by that of the link. *)
Theorem quarter_turn_pose :
  exists h',
    calcForwardKinematics false false root_and_child quarter_turn_heap
      = Some h' /\
    Link.R (h' 1%nat) = mkMatrix3 0 (-1) 0 1 0 0 0 0 1 /\
    Link.p (h' 1%nat) = mkVector3 1 0 0 /\
    Link.p (h' 1%nat) =
      vadd (Link.p (h' 0%nat))
           (mulMV (Link.R (h' 0%nat)) (mkVector3 1 0 0)).
Proof.
  eexists. split; [reflexivity|].
  unfold downward_step, set_R, set_p, update. simpl.
  split; [|split].
  - coords. rewrite sin_PI2, cos_PI2. f_equal; ring.
  - vec_eq.
  - reflexivity.
Qed.

(** C3 fails as stated: the position of [linkA] is [(1, 0, 0)], at distance
    1 (more than 1e-9) from the expected [(0, 1, 0)] in x and in y. *)
Lemma quarter_turn_position_differs :
  exists h',
    calcForwardKinematics false false root_and_child quarter_turn_heap
      = Some h' /\
    Link.p (h' 1%nat) <> mkVector3 0 1 0 /\
    Rabs (vx (Link.p (h' 1%nat)) - 0) > 1 / 1000000000 /\
    Rabs (vy (Link.p (h' 1%nat)) - 1) > 1 / 1000000000.
Proof.
  eexists. split; [reflexivity|].
  unfold downward_step, set_R, set_p, update. simpl.
  coords. split; [|split].
  - intros H. apply (f_equal vx) in H. simpl in H. lra.
  - replace (0 + (1 * 1 + 0 * 0 + 0 * 0) - 0) with 1 by ring.
    rewrite Rabs_R1. lra.
  - replace (0 + (0 * 1 + 1 * 0 + 0 * 0) - 1) with (Ropp 1) by ring.
    rewrite Rabs_Ropp, Rabs_R1. lra.
Qed.

Close Scope R_scope.

(** ** The frame of [calcForwardKinematics] *)

Lemma keeps_refl cv ca l : keeps cv ca l l.
Proof. unfold keeps, same_model. tauto. Qed.

Lemma keeps_trans cv ca l1 l2 l3 :
  keeps cv ca l1 l2 -> keeps cv ca l2 l3 -> keeps cv ca l1 l3.
Proof.
  unfold keeps, same_model. intros (M1 & V1 & A1) (M2 & V2 & A2).
  split; [|split].
  - decompose [and] M1. decompose [and] M2. repeat split; congruence.
  - intros E. destruct (V1 E), (V2 E). split; congruence.
  - intros E. destruct (A1 E), (A2 E). split; congruence.
Qed.

Lemma frame_refl cv ca link h : writes_only cv ca link h h.
Proof. intros x. split; [reflexivity|apply keeps_refl]. Qed.

Lemma frame_trans cv ca link h1 h2 h3 :
  writes_only cv ca link h1 h2 -> writes_only cv ca link h2 h3 ->
  writes_only cv ca link h1 h3.
Proof.
  intros H12 H23 x. destruct (H12 x) as [E1 K1], (H23 x) as [E2 K2]. split.
  - intros Hx. rewrite E2, E1 by assumption. reflexivity.
  - eapply keeps_trans; eassumption.
Qed.

Lemma frame_update cv ca link f h :
  (forall l, keeps cv ca l (f l)) -> writes_only cv ca link h (update link f h).
Proof.
  intros Hf x. unfold update. destruct (Nat.eqb x link) eqn:E.
  - split; [|apply Hf]. apply Nat.eqb_eq in E. tauto.
  - split; [reflexivity|apply keeps_refl].
Qed.

Lemma frame_set_R cv ca link e h : writes_only cv ca link h (set_R link e h).
Proof.
  apply frame_update. intros l. unfold keeps, same_model. simpl. tauto.
Qed.

Lemma frame_set_p cv ca link e h : writes_only cv ca link h (set_p link e h).
Proof.
  apply frame_update. intros l. unfold keeps, same_model. simpl. tauto.
Qed.

Lemma frame_set_w ca link e h : writes_only true ca link h (set_w link e h).
Proof.
  apply frame_update. intros l. unfold keeps, same_model. simpl.
  repeat split; intros; try reflexivity; discriminate.
Qed.

Lemma frame_set_v ca link e h : writes_only true ca link h (set_v link e h).
Proof.
  apply frame_update. intros l. unfold keeps, same_model. simpl.
  repeat split; intros; try reflexivity; discriminate.
Qed.

Lemma frame_set_dw link e h : writes_only true true link h (set_dw link e h).
Proof.
  apply frame_update. intros l. unfold keeps, same_model. simpl.
  repeat split; intros; try reflexivity; discriminate.
Qed.

Lemma frame_set_dv link e h : writes_only true true link h (set_dv link e h).
Proof.
  apply frame_update. intros l. unfold keeps, same_model. simpl.
  repeat split; intros; try reflexivity; discriminate.
Qed.

(** A step is a sequence of assignments to [link]. *)
Ltac frame_assignments :=
  repeat first
    [ apply frame_refl
    | eapply frame_trans;
      [|first [ apply frame_set_R | apply frame_set_p | apply frame_set_w
              | apply frame_set_v | apply frame_set_dw | apply frame_set_dv ]]
    ].

Lemma upward_step_frame cv ca link child h :
  writes_only cv ca link h (upward_step cv ca link child h).
Proof.
  unfold upward_step.
  destruct (Link.jointType (h child)), cv, ca; frame_assignments.
Qed.

Lemma downward_step_frame cv ca link parent h :
  writes_only cv ca link h (downward_step cv ca link parent h).
Proof.
  unfold downward_step.
  destruct (Link.jointType (h link)), cv, ca; frame_assignments.
Qed.

Lemma nth_error_tl (l : list LinkId) (i : nat) (x : LinkId) :
  1 <= i -> nth_error l i = Some x -> In x (tl l).
Proof.
  intros Hi H. destruct i as [|i]; [lia|].
  destruct l as [|y l]; [discriminate|]. simpl in *.
  eapply nth_error_In. exact H.
Qed.

Lemma upward_loop_frame cv ca t :
  forall n i h h',
    1 <= i ->
    upward_loop n cv ca t i h = Some h' ->
    forall x, keeps cv ca (h x) (h' x) /\
              (~ In x (tl (links_ t)) -> h' x = h x).
Proof.
  induction n as [|n IH]; intros i h h' Hi H x; simpl in H.
  - injection H as <-. split; [apply keeps_refl|reflexivity].
  - destruct (nth_error (links_ t) i) as [link|] eqn:El; [|discriminate].
    destruct (nth_error (links_ t) (i - 1)) as [child|]; [|discriminate].
    cbn [bind] in H.
    destruct (IH (S i) _ h' (le_S _ _ Hi) H x) as [K E].
    destruct (upward_step_frame cv ca link child h x) as [E1 K1].
    split.
    + eapply keeps_trans; eassumption.
    + intros Hx. rewrite (E Hx). apply E1. intros ->.
      apply Hx. eapply nth_error_tl; eassumption.
Qed.

Lemma downward_loop_frame cv ca t :
  forall n i h h',
    1 <= i ->
    downward_loop n cv ca t i h = Some h' ->
    forall x, keeps cv ca (h x) (h' x) /\
              (~ In x (tl (links_ t)) -> h' x = h x).
Proof.
  induction n as [|n IH]; intros i h h' Hi H x; simpl in H.
  - injection H as <-. split; [apply keeps_refl|reflexivity].
  - destruct (nth_error (links_ t) i) as [link|] eqn:El; [|discriminate].
    cbn [bind] in H.
    destruct (Link.parent (h link)) as [parent|]; [|discriminate].
    cbn [bind] in H.
    destruct (IH (S i) _ h' (le_S _ _ Hi) H x) as [K E].
    destruct (downward_step_frame cv ca link parent h x) as [E1 K1].
    split.
    + eapply keeps_trans; eassumption.
    + intros Hx. rewrite (E Hx). apply E1. intros ->.
      apply Hx. eapply nth_error_tl; eassumption.
Qed.

Lemma calcForwardKinematics_keeps cv ca t h h' :
  calcForwardKinematics cv ca t h = Some h' ->
  (forall x, keeps cv ca (h x) (h' x)) /\
  (forall x, ~ In x (tl (links_ t)) -> h' x = h x).
Proof.
  unfold calcForwardKinematics. intros H.
  destruct (upward_loop (Z.to_nat (numUpwardConnections t)) cv ca t 1 h)
    as [h1|] eqn:E1; [|discriminate].
  cbn [bind] in H.
  pose proof (upward_loop_frame cv ca t _ 1 h h1 (le_n 1) E1) as F1.
  assert (Hi : 1 <= S (Z.to_nat (numUpwardConnections t))) by lia.
  pose proof (downward_loop_frame cv ca t _ _ h1 h' Hi H) as F2.
  split.
  - intros x. eapply keeps_trans; [apply F1|apply F2].
  - intros x Hx. rewrite (proj2 (F2 x) Hx). exact (proj2 (F1 x) Hx).
Qed.

(** C7: [calcForwardKinematics] leaves every link that is not an entry
    after index 0 as it is, in particular the reference link (which a
    traversal lists once); in every link it leaves the pointers, the joint
    type, [q], [dq], [ddq], [a], [d], [b] and [Rb] as they are; without
    [calcVelocity] it leaves [w], [v], [dw] and [dv] as they are, and
    without [calcAcceleration] it leaves [dw] and [dv] as they are.  The
    traversal is an argument that the function does not return: it is not
    modified. *)
Theorem calcForwardKinematics_frame (cv ca : bool) (t : LinkTraverse)
    (h h' : Heap) :
  calcForwardKinematics cv ca t h = Some h' ->
  (forall ref rest, links_ t = ref :: rest -> ~ In ref rest ->
                    h' ref = h ref) /\
  (forall x, ~ In x (tl (links_ t)) -> h' x = h x) /\
  (forall x, same_model (h x) (h' x)) /\
  (cv = false ->
   forall x, Link.w (h' x) = Link.w (h x) /\ Link.v (h' x) = Link.v (h x) /\
             Link.dw (h' x) = Link.dw (h x) /\
             Link.dv (h' x) = Link.dv (h x)) /\
  (ca = false ->
   forall x, Link.dw (h' x) = Link.dw (h x) /\
             Link.dv (h' x) = Link.dv (h x)).
Proof.
  intros H.
  destruct (calcForwardKinematics_keeps cv ca t h h' H) as [K E].
  split; [|split; [exact E|split; [|split]]].
  - intros ref rest Ht Hn. apply E. rewrite Ht. exact Hn.
  - intros x. apply K.
  - intros -> x. destruct (K x) as (_ & V & A).
    destruct (V eq_refl), (A eq_refl). auto.
  - intros -> x. destruct (K x) as (_ & _ & A).
    apply A. apply andb_false_r.
Qed.

Lemma calcForwardKinematics_frame_witness :
  (forall ref rest, links_ root_and_child = ref :: rest -> ~ In ref rest ->
                    turning_pose_only ref = turning_heap ref) /\
  (forall x, ~ In x (tl (links_ root_and_child)) ->
             turning_pose_only x = turning_heap x) /\
  (forall x, same_model (turning_heap x) (turning_pose_only x)) /\
  (false = false ->
   forall x, Link.w (turning_pose_only x) = Link.w (turning_heap x) /\
             Link.v (turning_pose_only x) = Link.v (turning_heap x) /\
             Link.dw (turning_pose_only x) = Link.dw (turning_heap x) /\
             Link.dv (turning_pose_only x) = Link.dv (turning_heap x)) /\
  (true = false ->
   forall x, Link.dw (turning_pose_only x) = Link.dw (turning_heap x) /\
             Link.dv (turning_pose_only x) = Link.dv (turning_heap x)).
Proof.
  apply (calcForwardKinematics_frame false true root_and_child turning_heap
           turning_pose_only).
  reflexivity.
Defined.

(** ** The steps of the two loops *)

Lemma update_same link f h : update link f h link = f (h link).
Proof. unfold update. now rewrite Nat.eqb_refl. Qed.

Lemma update_other link f h x : x <> link -> update link f h x = h x.
Proof.
  intros H. unfold update. apply Nat.eqb_neq in H. now rewrite H.
Qed.

(** The fields of a link object after assignments to it. *)
Ltac read_links :=
  cbn beta iota delta
    [Link.set_R Link.set_p Link.set_w Link.set_v Link.set_dw Link.set_dv
     Link.parent Link.child Link.sibling Link.body Link.jointType
     Link.q Link.dq Link.ddq Link.a Link.d Link.b Link.Rb
     Link.R Link.p Link.w Link.v Link.dw Link.dv].

(** The step on link objects whose fields are known. *)
Ltac eval_link :=
  cbv beta iota zeta delta
    [downward_link upward_link joint_arm pose_rel at_rest_rel
     Link.set_R Link.set_p Link.set_w Link.set_v Link.set_dw Link.set_dv
     Link.parent Link.child Link.sibling Link.body Link.jointType
     Link.q Link.dq Link.ddq Link.a Link.d Link.b Link.Rb
     Link.R Link.p Link.w Link.v Link.dw Link.dv].

(** One assignment of a step at a time: what the store holds for [link]
    and for [other] after it. *)
Ltac run_step link other Hne :=
  lazymatch goal with
  | |- (let x := ?e in @?b x) link = ?rhs =>
    lazymatch e with
    | update link ?f ?hp =>
      let h0 := fresh "hs" in
      let Hl := fresh "Hl" in
      let Ho := fresh "Ho" in
      pose (h0 := e);
      assert (Hl : h0 link = f (hp link)) by apply update_same;
      assert (Ho : h0 other = hp other)
        by (apply update_other; congruence);
      change (b h0 link = rhs); cbv beta;
      clearbody h0;
      repeat match goal with
             | H : hp link = _ |- _ => rewrite H in Hl
             | H : hp other = _ |- _ => rewrite H in Ho
             end;
      rewrite ?Hl, ?Ho; read_links;
      run_step link other Hne
    | _ =>
      let y := fresh "y" in
      pose (y := e); change (b y link = rhs); cbv beta; subst y;
      read_links;
      run_step link other Hne
    end
  | |- _ => idtac
  end.

(** For distinct links the steps on the store are the steps on the link
    objects. *)
Lemma downward_step_link cv ca link parent h :
  link <> parent ->
  downward_step cv ca link parent h link =
  downward_link cv ca (h parent) (h link).
Proof.
  intros Hne.
  cbv beta delta [downward_step downward_link
                  set_R set_p set_w set_v set_dw set_dv].
  destruct (Link.jointType (h link)), cv, ca; lazy iota;
    run_step link parent Hne; reflexivity.
Qed.

Lemma upward_step_link cv ca link child h :
  link <> child ->
  upward_step cv ca link child h link =
  upward_link cv ca (h child) (h link).
Proof.
  intros Hne.
  cbv beta delta [upward_step upward_link
                  set_R set_p set_w set_v set_dw set_dv].
  destruct (Link.jointType (h child)), cv, ca; lazy iota;
    run_step link child Hne; reflexivity.
Qed.

(** ** The entries after [calcForwardKinematics] *)

(** After the first loop every entry it has met is the upward step of its
    predecessor in the sequence, and no other link has changed. *)
Lemma upward_loop_entries cv ca t :
  NoDup (links_ t) ->
  forall n i h h',
    1 <= i ->
    upward_loop n cv ca t i h = Some h' ->
    (forall x, (forall k, i <= k < i + n -> nth_error (links_ t) k <> Some x)
               -> h' x = h x) /\
    (forall k link child,
        i <= k < i + n ->
        nth_error (links_ t) k = Some link ->
        nth_error (links_ t) (k - 1) = Some child ->
        h' link = upward_link cv ca (h' child) (h link)).
Proof.
  intros Hnd. induction n as [|n IH]; intros i h h' Hi H.
  - simpl in H. injection H as <-. split; [reflexivity|]. intros; lia.
  - simpl in H.
    destruct (nth_error (links_ t) i) as [link0|] eqn:El; [|discriminate].
    destruct (nth_error (links_ t) (i - 1)) as [child0|] eqn:Ec;
      [|discriminate].
    cbn [bind] in H.
    destruct (IH (S i) _ h' (le_S _ _ Hi) H) as [Fr En].
    assert (Frame : forall x,
               (forall k, i <= k < i + S n -> nth_error (links_ t) k <> Some x)
               -> h' x = h x).
    { intros x Hx. rewrite Fr.
      - apply (upward_step_frame cv ca link0 child0 h x).
        intros ->. apply (Hx i); [lia|exact El].
      - intros k Hk. apply Hx. lia. }
    split; [exact Frame|].
    intros k link child Hk Hl Hc.
    destruct (Nat.eq_dec k i) as [->|Hki].
    + rewrite El in Hl. injection Hl as <-.
      rewrite Ec in Hc. injection Hc as <-.
      assert (Hne : link0 <> child0).
      { intros <-.
        pose proof (NoDup_nth_error_eq _ _ _ _ Hnd El Ec). lia. }
      rewrite Fr.
      * rewrite upward_step_link by exact Hne.
        rewrite (Frame child0); [reflexivity|].
        intros k Hk' Hk''.
        pose proof (NoDup_nth_error_eq _ _ _ _ Hnd Ec Hk''). lia.
      * intros k Hk' Hk''.
        pose proof (NoDup_nth_error_eq _ _ _ _ Hnd El Hk''). lia.
    + rewrite (En k link child) by (assumption || lia).
      f_equal. apply (upward_step_frame cv ca link0 child0 h link).
      intros ->. apply Hki.
      exact (NoDup_nth_error_eq _ _ _ _ Hnd Hl El).
Qed.

(** After the second loop every entry it has met whose parent is an
    earlier entry is the downward step of its parent, and no other link
    has changed. *)
Lemma downward_loop_entries cv ca t :
  NoDup (links_ t) ->
  forall n i h h',
    downward_loop n cv ca t i h = Some h' ->
    (forall x, (forall k, i <= k < i + n -> nth_error (links_ t) k <> Some x)
               -> h' x = h x) /\
    (forall k link par,
        i <= k < i + n ->
        nth_error (links_ t) k = Some link ->
        Link.parent (h link) = Some par ->
        (exists j, j < k /\ nth_error (links_ t) j = Some par) ->
        h' link = downward_link cv ca (h' par) (h link)).
Proof.
  intros Hnd. induction n as [|n IH]; intros i h h' H.
  - simpl in H. injection H as <-. split; [reflexivity|]. intros; lia.
  - simpl in H.
    destruct (nth_error (links_ t) i) as [link0|] eqn:El; [|discriminate].
    cbn [bind] in H.
    destruct (Link.parent (h link0)) as [par0|] eqn:Ep; [|discriminate].
    cbn [bind] in H.
    destruct (IH (S i) _ h' H) as [Fr En].
    assert (Frame : forall x,
               (forall k, i <= k < i + S n -> nth_error (links_ t) k <> Some x)
               -> h' x = h x).
    { intros x Hx. rewrite Fr.
      - apply (downward_step_frame cv ca link0 par0 h x).
        intros ->. apply (Hx i); [lia|exact El].
      - intros k Hk. apply Hx. lia. }
    split; [exact Frame|].
    intros k link par Hk Hl Hp (j & Hj & Hpar).
    destruct (Nat.eq_dec k i) as [->|Hki].
    + rewrite El in Hl. injection Hl as <-.
      rewrite Ep in Hp. injection Hp as <-.
      assert (Hne : link0 <> par0).
      { intros <-.
        pose proof (NoDup_nth_error_eq _ _ _ _ Hnd El Hpar). lia. }
      rewrite Fr.
      * rewrite downward_step_link by exact Hne.
        rewrite (Frame par0); [reflexivity|].
        intros k Hk' Hk''.
        pose proof (NoDup_nth_error_eq _ _ _ _ Hnd Hpar Hk''). lia.
      * intros k Hk' Hk''.
        pose proof (NoDup_nth_error_eq _ _ _ _ Hnd El Hk''). lia.
    + assert (E : downward_step cv ca link0 par0 h link = h link).
      { apply (downward_step_frame cv ca link0 par0 h link).
        intros ->. apply Hki.
        exact (NoDup_nth_error_eq _ _ _ _ Hnd Hl El). }
      rewrite (En k link par); [rewrite E; reflexivity|lia|exact Hl| |eauto].
      rewrite E. exact Hp.
Qed.

(** [calcForwardKinematics] on a traversal without repetitions: every
    entry [1..numUpwardConnections] ends as the upward step of the entry
    before it, every later entry whose parent is an earlier entry ends as
    the downward step of its parent. *)
Lemma calcForwardKinematics_entries cv ca t h h' :
  NoDup (links_ t) ->
  calcForwardKinematics cv ca t h = Some h' ->
  (forall k link child,
      (1 <= Z.of_nat k <= numUpwardConnections t)%Z ->
      nth_error (links_ t) k = Some link ->
      nth_error (links_ t) (k - 1) = Some child ->
      h' link = upward_link cv ca (h' child) (h link)) /\
  (forall k link par,
      1 <= k ->
      (numUpwardConnections t < Z.of_nat k)%Z ->
      nth_error (links_ t) k = Some link ->
      Link.parent (h link) = Some par ->
      (exists j, j < k /\ nth_error (links_ t) j = Some par) ->
      h' link = downward_link cv ca (h' par) (h link)).
Proof.
  intros Hnd H. unfold calcForwardKinematics in H.
  set (up := Z.to_nat (numUpwardConnections t)) in *.
  destruct (upward_loop up cv ca t 1 h) as [h1|] eqn:E1; [|discriminate].
  cbn [bind] in H.
  destruct (upward_loop_entries cv ca t Hnd up 1 h h1 (le_n 1) E1)
    as [Fr1 En1].
  destruct (downward_loop_entries cv ca t Hnd _ _ h1 h' H) as [Fr2 En2].
  split.
  - intros k link child Hk Hl Hc.
    assert (Hup : 1 <= k < 1 + up) by (unfold up; lia).
    rewrite (Fr2 link), (Fr2 child).
    + exact (En1 k link child Hup Hl Hc).
    + intros k' Hk' Hk''.
      pose proof (NoDup_nth_error_eq _ _ _ _ Hnd Hc Hk''). lia.
    + intros k' Hk' Hk''.
      pose proof (NoDup_nth_error_eq _ _ _ _ Hnd Hl Hk''). lia.
  - intros k link par Hk1 Hk Hl Hp Hj.
    assert (Hlen : k < length (links_ t)).
    { apply nth_error_Some. congruence. }
    assert (E : h1 link = h link).
    { apply Fr1. intros k' Hk' Hk''.
      pose proof (NoDup_nth_error_eq _ _ _ _ Hnd Hl Hk'').
      unfold up in Hk'. lia. }
    rewrite (En2 k link par); [rewrite E; reflexivity| |exact Hl| |exact Hj].
    + unfold up. lia.
    + rewrite E. exact Hp.
Qed.

(** ** The relations across a joint *)

Open Scope R_scope.

Lemma mulMM_assoc (A B C : Matrix3) :
  mulMM (mulMM A B) C = mulMM A (mulMM B C).
Proof. split_coords. coords. f_equal; ring. Qed.

Lemma mulMM_Identity_l (A : Matrix3) : mulMM Identity A = A.
Proof. split_coords. coords. f_equal; ring. Qed.

Lemma mulMM_Identity_r (A : Matrix3) : mulMM A Identity = A.
Proof. split_coords. coords. f_equal; ring. Qed.

Lemma vadd_vsub (u v : Vector3) : vadd (vsub u v) v = u.
Proof. vec_eq. Qed.

(** The rotation about a unit axis by [- q] undoes the rotation by [q]. *)
Lemma AngleAxisd_inverse_l (q : R) (a : Vector3) :
  unit_vector a ->
  mulMM (AngleAxisd_inverse q a) (AngleAxisd q a) = Identity.
Proof.
  unfold unit_vector. intros Ha. destruct a as [x y z]. simpl in Ha.
  pose proof (sin2_cos2 q) as Hsc. unfold Rsqr in Hsc.
  unfold AngleAxisd_inverse. coords. rewrite sin_neg, cos_neg.
  set (s := sin q) in *. set (c := cos q) in *. clearbody s c.
  f_equal; nsatz.
Qed.

(** The arms and joint axes of a goal, as vectors of their own. *)
Ltac forget_arms :=
  repeat match goal with
         | |- context [mulMV ?m ?v] =>
           let arm := fresh "arm" in
           generalize (mulMV m v); intros arm
         end.

(** The downward step sets up the pose relation. *)
Lemma downward_link_pose cv ca (par l : Link.t) :
  pose_rel par (downward_link cv ca par l).
Proof.
  destruct par as [? ? ? ? ? ? ? ? ? ? ? ? Rp pp wp vp dwp dvp].
  destruct l as [? ? ? ? jt lq ldq lddq la ld lb lRb ? ? ? ? ? ?].
  destruct jt, cv, ca; eval_link; split; reflexivity.
Qed.

(** The upward step computes a pose under which the pose relation holds
    from the computed link down to the child it was computed from. *)
Lemma upward_link_pose cv ca (chi l : Link.t) :
  orthogonal (Link.Rb chi) ->
  (Link.jointType chi = ROTATIONAL_JOINT -> unit_vector (Link.a chi)) ->
  pose_rel (upward_link cv ca chi l) chi.
Proof.
  unfold orthogonal.
  destruct chi as [? ? ? ? jt cq cdq cddq ca' cd cb cRb cR cp ? ? ? ?].
  destruct l as [? ? ? ? ? ? ? ? ? ? ? ? lR lp lw lv ldw ldv].
  cbn [Link.Rb Link.a Link.jointType]. intros Hrb Ha.
  destruct jt, cv, ca; eval_link;
    (split; [|symmetry; apply vadd_vsub]);
    rewrite ?mulMM_assoc;
    rewrite <- ?(mulMM_assoc (transpose cRb) cRb), ?Hrb,
      ?mulMM_Identity_l, ?mulMM_Identity_r;
    try reflexivity;
    rewrite (AngleAxisd_inverse_l cq ca' (Ha eq_refl)), mulMM_Identity_r;
    reflexivity.
Qed.

(** The downward step across a joint at rest. *)
Lemma downward_link_at_rest (par l : Link.t) :
  Link.dq l = 0 -> Link.ddq l = 0 ->
  at_rest_rel par (downward_link true true par l).
Proof.
  destruct par as [? ? ? ? ? ? ? ? ? ? ? ? Rp pp wp vp dwp dvp].
  destruct l as [? ? ? ? jt lq ldq lddq la ld lb lRb ? ? ? ? ? ?].
  cbn [Link.dq Link.ddq]. intros -> ->.
  destruct jt; eval_link; forget_arms;
    (split; [|split; [|split]]); vec_eq.
Qed.

(** The upward step across a joint at rest. *)
Lemma upward_link_at_rest (chi l : Link.t) :
  Link.dq chi = 0 -> Link.ddq chi = 0 ->
  at_rest_rel (upward_link true true chi l) chi.
Proof.
  destruct chi as [? ? ? ? jt cq cdq cddq ca' cd cb cRb cR cp cw cv cdw cdv].
  destruct l as [? ? ? ? ? ? ? ? ? ? ? ? lR lp lw lv ldw ldv].
  cbn [Link.dq Link.ddq]. intros -> ->.
  destruct jt; eval_link; forget_arms;
    (split; [|split; [|split]]); vec_eq.
Qed.

(** C4, as the code has it: after [calcForwardKinematics(true, true)] on a
    traversal without repetitions, a link computed over a joint with
    [dq = ddq = 0] has the [w] and the [dw] of its predecessor for every
    joint type; its [v] is that of the predecessor for a slide joint and
    differs from it by the arm-transport term [w x arm] for a rotational,
    fixed or other joint; its [dv] differs from that of the predecessor by
    the arm-transport terms [w x (w x arm) + dw x arm].  This is
    [at_rest_rel] between the parent side and the child side of the joint:
    parent and link in the second loop, link and child in the first. *)
Theorem calcForwardKinematics_at_rest (t : LinkTraverse) (h h' : Heap) :
  NoDup (links_ t) ->
  calcForwardKinematics true true t h = Some h' ->
  (forall k link par,
      (1 <= k)%nat ->
      (numUpwardConnections t < Z.of_nat k)%Z ->
      nth_error (links_ t) k = Some link ->
      Link.parent (h link) = Some par ->
      (exists j, (j < k)%nat /\ nth_error (links_ t) j = Some par) ->
      Link.dq (h link) = 0 -> Link.ddq (h link) = 0 ->
      at_rest_rel (h' par) (h' link)) /\
  (forall k link child,
      (1 <= Z.of_nat k <= numUpwardConnections t)%Z ->
      nth_error (links_ t) k = Some link ->
      nth_error (links_ t) (k - 1) = Some child ->
      Link.dq (h child) = 0 -> Link.ddq (h child) = 0 ->
      at_rest_rel (h' link) (h' child)).
Proof.
  intros Hnd H.
  destruct (calcForwardKinematics_entries true true t h h' Hnd H)
    as [Up Down].
  destruct (calcForwardKinematics_keeps true true t h h' H) as [K _].
  split.
  - intros k link par Hk1 Hk Hl Hp Hj Hdq Hddq.
    rewrite (Down k link par Hk1 Hk Hl Hp Hj).
    apply downward_link_at_rest; assumption.
  - intros k link child Hk Hl Hc Hdq Hddq.
    rewrite (Up k link child Hk Hl Hc).
    destruct (K child) as (M & _). unfold same_model in M.
    decompose [and] M.
    apply upward_link_at_rest; congruence.
Qed.

Lemma calcForwardKinematics_at_rest_witness :
  at_rest_rel (turning_result 0%nat) (turning_result 1%nat).
Proof.
  apply (proj1 (calcForwardKinematics_at_rest root_and_child turning_heap
                  turning_result
                  ltac:(repeat constructor; simpl; intuition discriminate)
                  eq_refl) 1%nat 1%nat 0%nat).
  - apply le_n.
  - simpl. lia.
  - reflexivity.
  - reflexivity.
  - exists 0%nat. split; [apply le_n|reflexivity].
  - reflexivity.
  - reflexivity.
Defined.

(** C4 fails as stated: with every [dq] and [ddq] zero, the link [1]
    behind a fixed joint at the offset [(1, 0, 0)] from a root that turns
    about the z axis gets the velocity [(0, 1, 0)], not the velocity
    [(0, 0, 0)] of its predecessor. *)
Lemma fixed_joint_velocity_differs :
  calcForwardKinematics true true root_and_child turning_heap
    = Some turning_result /\
  (forall x, Link.dq (turning_heap x) = 0 /\
             Link.ddq (turning_heap x) = 0) /\
  Link.jointType (turning_heap 1%nat) = FIXED_JOINT /\
  Link.parent (turning_heap 1%nat) = Some 0%nat /\
  Link.v (turning_result 0%nat) = mkVector3 0 0 0 /\
  Link.v (turning_result 1%nat) = mkVector3 0 1 0 /\
  Link.v (turning_result 1%nat) <> Link.v (turning_result 0%nat).
Proof.
  assert (E1 : Link.v (turning_result 1%nat) = mkVector3 0 1 0).
  { unfold turning_result. rewrite downward_step_link by discriminate.
    unfold turning_heap, plain_link. eval_link. vec_eq. }
  assert (E0 : Link.v (turning_result 0%nat) = mkVector3 0 0 0).
  { unfold turning_result.
    rewrite (proj1 (downward_step_frame true true 1%nat 0%nat
                      turning_heap 0%nat)) by discriminate.
    reflexivity. }
  split; [reflexivity|]. split.
  { intros [|[|x]]; split; reflexivity. }
  split; [reflexivity|]. split; [reflexivity|].
  split; [exact E0|]. split; [exact E1|].
  rewrite E0, E1. intros H. apply (f_equal vy) in H. simpl in H. lra.
Qed.

(** The second loop sets up the downward relation between every entry and
    its parent. *)
Lemma calcForwardKinematics_downward_pose cv ca t h h' :
  NoDup (links_ t) ->
  calcForwardKinematics cv ca t h = Some h' ->
  forall k link par,
    (1 <= k)%nat ->
    (numUpwardConnections t < Z.of_nat k)%Z ->
    nth_error (links_ t) k = Some link ->
    Link.parent (h link) = Some par ->
    (exists j, (j < k)%nat /\ nth_error (links_ t) j = Some par) ->
    downward_pose h' par link.
Proof.
  intros Hnd H k link par Hk1 Hk Hl Hp Hj. unfold downward_pose.
  rewrite (proj2 (calcForwardKinematics_entries cv ca t h h' Hnd H)
             k link par Hk1 Hk Hl Hp Hj).
  apply downward_link_pose.
Qed.

(** C8: after [calcForwardKinematics] on a traversal without repetitions,
    for every index [1 <= k <= numUpwardConnections] the pose computed for
    [link = traversal[k]] satisfies the downward relation with
    [child = traversal[k-1]] in the role of the link and [link] in the
    role of the parent: [child.R = link.R * child.Rb * Rot(child.a,
    child.q)] behind a rotational joint ([child.R = link.R * child.Rb]
    behind any other) and [child.p = link.p + arm], the arm computed from
    [b], [Rb], [q] and [d] of the child as in the downward formulas.  [Rb]
    is a rotation and the axis of a rotational joint is a unit vector, as
    the data model has them. *)
Theorem calcForwardKinematics_upward_pose (cv ca : bool) (t : LinkTraverse)
    (h h' : Heap) :
  NoDup (links_ t) ->
  calcForwardKinematics cv ca t h = Some h' ->
  forall k link child,
    (1 <= Z.of_nat k <= numUpwardConnections t)%Z ->
    nth_error (links_ t) k = Some link ->
    nth_error (links_ t) (k - 1) = Some child ->
    orthogonal (Link.Rb (h child)) ->
    (Link.jointType (h child) = ROTATIONAL_JOINT ->
     unit_vector (Link.a (h child))) ->
    downward_pose h' link child.
Proof.
  intros Hnd H k link child Hk Hl Hc Hrb Ha. unfold downward_pose.
  rewrite (proj1 (calcForwardKinematics_entries cv ca t h h' Hnd H)
             k link child Hk Hl Hc).
  destruct (calcForwardKinematics_keeps cv ca t h h' H) as [K _].
  destruct (K child) as (M & _). unfold same_model in M.
  decompose [and] M.
  apply upward_link_pose.
  - congruence.
  - intros Hj. replace (Link.a (h' child)) with (Link.a (h child))
      by congruence.
    apply Ha. congruence.
Qed.

Lemma calcForwardKinematics_upward_pose_witness :
  downward_pose (upward_step true true 0%nat 1%nat quarter_turn_heap)
    0%nat 1%nat.
Proof.
  apply (calcForwardKinematics_upward_pose true true child_and_root
           quarter_turn_heap
           (upward_step true true 0%nat 1%nat quarter_turn_heap)
           ltac:(repeat constructor; simpl; intuition discriminate)
           eq_refl 1%nat 0%nat 1%nat).
  - simpl. lia.
  - reflexivity.
  - reflexivity.
  - unfold orthogonal. simpl. coords. f_equal; ring.
  - intros _. unfold unit_vector. simpl. ring.
Defined.

Close Scope R_scope.

(** ** [calcForwardKinematics] returns *)

Lemma upward_loop_total cv ca t :
  forall n i h,
    1 <= i ->
    (forall k, i <= k < i + n -> k < length (links_ t)) ->
    exists h', upward_loop n cv ca t i h = Some h'.
Proof.
  induction n as [|n IH]; intros i h Hi Hlen; [simpl; eauto|].
  simpl.
  destruct (nth_error (links_ t) i) as [link|] eqn:El.
  2:{ apply nth_error_None in El. specialize (Hlen i). lia. }
  destruct (nth_error (links_ t) (i - 1)) as [child|] eqn:Ec.
  2:{ apply nth_error_None in Ec. specialize (Hlen i). lia. }
  cbn [bind]. apply IH; [lia|]. intros k Hk. apply Hlen. lia.
Qed.

Lemma downward_loop_total cv ca t :
  forall n i h,
    (forall k, i <= k < i + n -> k < length (links_ t)) ->
    (forall k link, i <= k < i + n ->
                    nth_error (links_ t) k = Some link ->
                    Link.parent (h link) <> None) ->
    exists h', downward_loop n cv ca t i h = Some h'.
Proof.
  induction n as [|n IH]; intros i h Hlen Hpar; [simpl; eauto|].
  simpl.
  destruct (nth_error (links_ t) i) as [link|] eqn:El.
  2:{ apply nth_error_None in El. specialize (Hlen i). lia. }
  cbn [bind].
  destruct (Link.parent (h link)) as [parent|] eqn:Ep.
  2:{ exfalso. apply (Hpar i link); [lia|exact El|exact Ep]. }
  cbn [bind]. apply IH.
  - intros k Hk. apply Hlen. lia.
  - intros k y Hk Hy.
    destruct (downward_step_frame cv ca link parent h y) as (_ & M & _).
    unfold same_model in M. destruct M as (M & _). rewrite M.
    apply (Hpar k y); [lia|exact Hy].
Qed.

(** [calcForwardKinematics] returns a store when
    [numUpwardConnections] is an index of the sequence and every entry
    after it has a parent pointer. *)
Lemma calcForwardKinematics_total cv ca t h :
  (numUpwardConnections t < Z.of_nat (length (links_ t)))%Z ->
  (forall k link,
      1 <= k -> (numUpwardConnections t < Z.of_nat k)%Z ->
      nth_error (links_ t) k = Some link ->
      Link.parent (h link) <> None) ->
  exists h', calcForwardKinematics cv ca t h = Some h'.
Proof.
  intros HU Hpar. unfold calcForwardKinematics.
  set (up := Z.to_nat (numUpwardConnections t)).
  destruct (upward_loop_total cv ca t up 1 h (le_n 1)) as [h1 E1].
  { intros k Hk. unfold up in Hk. lia. }
  rewrite E1. cbn [bind].
  apply downward_loop_total.
  - intros k Hk. lia.
  - intros k y Hk Hy.
    destruct (upward_loop_frame cv ca t up 1 h h1 (le_n 1) E1 y)
      as ((M & _) & _).
    unfold same_model in M. destruct M as (M & _). rewrite M.
    apply (Hpar k y); [lia|unfold up in Hk; lia|exact Hy].
Qed.

(** ** The traversals that [find] builds *)

Lemma parents_ok_fapp h p :
  forall l r, parents_ok h p (fapp l r) ->
              parents_ok h p l /\ parents_ok h p r.
Proof.
  induction l as [|i c _ s IHs]; intros r H; simpl in *; [tauto|].
  destruct H as (Hp & Hc & Hs). destruct (IHs r Hs). tauto.
Qed.

Lemma parents_before_ok h :
  forall f p seen more,
    parents_ok h p f ->
    In p seen ->
    parents_before h (seen ++ preorder f) more ->
    parents_before h seen (preorder f ++ more).
Proof.
  induction f as [|i c IHc s IHs]; intros p seen more Hok Hp H.
  - simpl in *. now rewrite app_nil_r in H.
  - simpl in Hok. destruct Hok as (Hpi & Hc & Hs). simpl. split.
    + exists p. auto.
    + rewrite <- app_assoc.
      apply (IHc i); [exact Hc|apply in_or_app; right; now left|].
      apply (IHs p); [exact Hs|rewrite !in_app_iff; tauto|].
      simpl in H. rewrite <- !app_assoc. simpl. exact H.
Qed.

Lemma parents_before_sides h b :
  forall frames x cx seen more,
    up_lays h b x cx frames ->
    (forall F, In F frames -> In (fid F) seen) ->
    parents_before h (seen ++ sides frames) more ->
    parents_before h seen (sides frames ++ more).
Proof.
  induction frames as [|G rest IH]; intros x cx seen more Hup Hseen H.
  - simpl in *. now rewrite app_nil_r in H.
  - simpl in Hup. destruct Hup as (_ & _ & Hl & Hup).
    apply lays_parents_ok in Hl. unfold plug in Hl.
    apply parents_ok_fapp in Hl. destruct Hl as (HL & _ & _ & HR).
    simpl. rewrite <- !app_assoc.
    apply (IH (fid G) (plug G x cx)); [exact Hup| |].
    { intros F HF. apply Hseen. now right. }
    assert (HG : In (fid G) (seen ++ sides rest)).
    { apply in_or_app. left. apply Hseen. now left. }
    apply (parents_before_ok h _ (fid G)); [exact HL|exact HG|].
    apply (parents_before_ok h _ (fid G)); [exact HR| |].
    { apply in_or_app. now left. }
    simpl in H. rewrite <- !app_assoc in *. exact H.
Qed.

Lemma up_part_sides :
  forall frames, up_part frames = map fid frames ++ sides frames.
Proof.
  induction frames as [|G rest IH]; [reflexivity|].
  simpl. rewrite IH, <- !app_assoc. reflexivity.
Qed.

Lemma parents_before_nth h :
  forall todo seen,
    parents_before h seen todo ->
    forall k y,
      length seen <= k ->
      nth_error (seen ++ todo) k = Some y ->
      exists q, Link.parent (h y) = Some q /\
                exists j, j < k /\ nth_error (seen ++ todo) j = Some q.
Proof.
  induction todo as [|y0 rest IH]; intros seen H k y Hk Hy.
  - rewrite app_nil_r in Hy.
    assert (k < length seen) by (apply nth_error_Some; congruence). lia.
  - simpl in H. destruct H as ((q & Hq & Hin) & Hrest).
    destruct (Nat.eq_dec k (length seen)) as [->|Hne].
    + rewrite nth_error_app2, Nat.sub_diag in Hy by lia.
      simpl in Hy. injection Hy as <-.
      exists q. split; [exact Hq|].
      destruct (In_nth_error _ _ Hin) as [j Hj].
      exists j. assert (j < length seen) by (apply nth_error_Some; congruence).
      split; [assumption|]. rewrite nth_error_app1 by assumption. exact Hj.
    + replace (seen ++ y0 :: rest) with ((seen ++ [y0]) ++ rest) in *
        by (rewrite <- app_assoc; reflexivity).
      apply (IH (seen ++ [y0]) Hrest k y); [|exact Hy].
      rewrite length_app. simpl. lia.
Qed.

(** X3: on a mechanism, the traversal that [find] builds with both flags
    from any link has no repetitions, every entry after
    [numUpwardConnections] has its parent among the entries before it,
    and [calcForwardKinematics] returns a store for it. *)
Lemma find_calcForwardKinematics (cv ca : bool) (h : Heap) (r : LinkId)
    (c : forest) (x : LinkId) (t0 : LinkTraverse) :
  mechanism h r c ->
  In x (r :: preorder c) ->
  exists n, forall fuel, n <= fuel ->
    exists t h',
      find fuel h x true true t0 = Some t /\
      NoDup (links_ t) /\
      (forall k link,
          (numUpwardConnections t < Z.of_nat k)%Z ->
          nth_error (links_ t) k = Some link ->
          exists par, Link.parent (h link) = Some par /\
                      exists j, j < k /\
                                nth_error (links_ t) j = Some par) /\
      calcForwardKinematics cv ca t h = Some h'.
Proof.
  intros Hm Hin.
  destruct (locate_mechanism h r c x Hm Hin)
    as (cx & frames & Hl & Hup & Hp & _).
  assert (Hnd : NoDup (x :: up_part frames ++ preorder cx)).
  { apply Permutation_NoDup with (l := r :: preorder c).
    - symmetry. exact Hp.
    - apply Hm. }
  destruct (find_located h x cx frames Hl Hup Hnd) as [n Hn].
  exists n. intros fuel Hf.
  set (t := mkLinkTraverse (x :: up_part frames ++ preorder cx)
                           (Z.of_nat (length frames))).
  assert (Hseq : links_ t =
                 (x :: map fid frames) ++ (sides frames ++ preorder cx)).
  { simpl. rewrite up_part_sides, <- app_assoc. reflexivity. }
  assert (Hpb : parents_before h (x :: map fid frames)
                  (sides frames ++ preorder cx)).
  { apply (parents_before_sides h (Link.body (h x)) frames x cx);
      [exact Hup| |].
    - intros F HF. right. now apply in_map.
    - rewrite <- (app_nil_r (preorder cx)).
      apply (parents_before_ok h cx x).
      + eapply lays_parents_ok. exact Hl.
      + apply in_or_app. left. now left.
      + exact I. }
  assert (Hpar : forall k link,
             (numUpwardConnections t < Z.of_nat k)%Z ->
             nth_error (links_ t) k = Some link ->
             exists par, Link.parent (h link) = Some par /\
                         exists j, j < k /\
                                   nth_error (links_ t) j = Some par).
  { intros k link Hk Hlk. rewrite Hseq in *.
    apply (parents_before_nth h _ _ Hpb k link); [|exact Hlk].
    simpl in Hk |- *. rewrite length_map. lia. }
  destruct (calcForwardKinematics_total cv ca t h) as [h' Hh'].
  { rewrite Hseq. simpl. rewrite !length_app, length_map. lia. }
  { intros k link _ Hk Hlk.
    destruct (Hpar k link Hk Hlk) as (par & E & _). congruence. }
  exists t, h'. split; [apply Hn; exact Hf|].
  split; [exact Hnd|]. split; [exact Hpar|exact Hh'].
Qed.

(** ** [find] in one direction and on any store *)

(** X1: with [doDownward] alone, [find] from a link whose children have the
    shape [cx] returns the link followed by everything below it in
    preorder, every link before its children, and no upward connection.
    Fuel [S (need cx)] is enough. *)
Theorem find_downward_only (h : Heap) (b : option BodyId) (x : LinkId)
    (cx : forest) (t0 : LinkTraverse) (fuel : nat) :
  lays h b (Some x) cx (Link.child (h x)) ->
  S (need cx) <= fuel ->
  find fuel h x false true t0 = Some (mkLinkTraverse (x :: preorder cx) 0).
Proof.
  intros Hl Hf. destruct fuel as [|fuel]; [lia|].
  unfold find. rewrite traverse_S. cbv zeta.
  cbn [andb numUpwardConnections].
  destruct (Link.parent (h x)); cbn [bind];
    rewrite (traverse_children_lays h b cx _ _ None fuel _ Hl) by lia;
    rewrite skip_None; reflexivity.
Qed.

Lemma find_downward_only_witness :
  find 3 fork_heap 1 false true empty_traverse =
  Some (mkLinkTraverse (1 :: preorder (Cons 3 Nil Nil)) 0).
Proof.
  apply (find_downward_only fork_heap (Some 7) 1 (Cons 3 Nil Nil)
           empty_traverse 3).
  - simpl. repeat split; reflexivity.
  - simpl. lia.
Defined.

Lemma parent_chain_head fuel h x chain :
  parent_chain fuel h x = Some chain -> exists rest, chain = x :: rest.
Proof.
  destruct fuel as [|fuel]; [discriminate|]. simpl.
  destruct (Link.parent (h x)) as [par|]; [|intros [= <-]; eauto].
  destruct (ptr_eqb (Link.body (h par)) (Link.body (h x)));
    [|intros [= <-]; eauto].
  destruct (parent_chain fuel h par); [|discriminate].
  cbn [bind]. intros [= <-]. eauto.
Qed.

(** What [traverse] and its loop append, on any store: with [doUpward] the
    parent chain first, and one upward connection for every parent
    followed; without it no upward connection besides the one the call
    itself arrives over. *)
Lemma traverse_shape h :
  forall fuel,
    (forall x up down isUp prev t t',
        traverse fuel h x up down isUp prev t = Some t' ->
        exists rest,
          links_ t' = links_ t ++ x :: rest /\
          if up
          then exists chain more,
                 parent_chain fuel h x = Some chain /\
                 x :: rest = chain ++ more /\
                 numUpwardConnections t' =
                 (numUpwardConnections t + (if isUp then 1 else 0)
                  + Z.of_nat (length chain) - 1)%Z
          else numUpwardConnections t' =
               (numUpwardConnections t + (if isUp then 1 else 0))%Z) /\
    (forall c prev t t',
        traverse_children fuel h c prev t = Some t' ->
        exists rest,
          links_ t' = links_ t ++ rest /\
          numUpwardConnections t' = numUpwardConnections t).
Proof.
  induction fuel as [|fuel [IHt IHc]].
  - split.
    + intros; discriminate.
    + intros [c|] prev t t' H; [discriminate|].
      injection H as <-. exists []. now rewrite app_nil_r.
  - split.
    + intros x up down isUp prev t t' H.
      rewrite traverse_S in H. cbv zeta in H.
      set (t1 := if isUp then incr (push_back x t) else push_back x t) in *.
      assert (Et : links_ t1 = links_ t ++ [x] /\
                   numUpwardConnections t1 =
                   (numUpwardConnections t + (if isUp then 1 else 0))%Z).
      { subst t1. destruct isUp; simpl; split; auto; lia. }
      destruct Et as [El En].
      (* the walk below [x] *)
      assert (Down : forall t2,
                 (if down
                  then traverse_children fuel h (Link.child (h x)) prev t2
                  else Some t2) = Some t' ->
                 exists rest2, links_ t' = links_ t2 ++ rest2 /\
                               numUpwardConnections t' =
                               numUpwardConnections t2).
      { intros t2 H2. destruct down.
        - exact (IHc _ _ _ _ H2).
        - injection H2 as <-. exists []. now rewrite app_nil_r. }
      cbn [parent_chain].
      destruct (Link.parent (h x)) as [par|].
      * destruct up; cbn [andb] in H.
        -- destruct (ptr_eqb (Link.body (h par)) (Link.body (h x))).
           ++ destruct (traverse fuel h par true true true (Some x) t1)
                as [t2|] eqn:E2; [|discriminate].
              cbn [bind] in H.
              destruct (IHt _ _ _ _ _ _ _ E2)
                as (rest1 & L1 & chain1 & more1 & C1 & S1 & N1).
              destruct (Down t2 H) as (rest2 & L2 & N2).
              exists (par :: rest1 ++ rest2). split.
              ** rewrite L2, L1, El, <- !app_assoc. reflexivity.
              ** exists (x :: chain1), (more1 ++ rest2).
                 rewrite C1. cbn [bind]. split; [reflexivity|]. split.
                 --- change (x :: par :: rest1 ++ rest2)
                       with (x :: (par :: rest1) ++ rest2).
                     rewrite S1, <- app_assoc. reflexivity.
                 --- rewrite N2, N1, En. cbn [length]. lia.
           ++ cbn [bind] in H. destruct (Down t1 H) as (rest2 & L2 & N2).
              exists rest2. split.
              ** rewrite L2, El, <- app_assoc. reflexivity.
              ** exists [x], rest2. split; [reflexivity|].
                 split; [reflexivity|]. rewrite N2, En. simpl. lia.
        -- cbn [bind] in H. destruct (Down t1 H) as (rest2 & L2 & N2).
           exists rest2. split.
           ++ rewrite L2, El, <- app_assoc. reflexivity.
           ++ rewrite N2, En. reflexivity.
      * cbn [bind] in H. destruct (Down t1 H) as (rest2 & L2 & N2).
        exists rest2. split.
        -- rewrite L2, El, <- app_assoc. reflexivity.
        -- destruct up.
           ++ exists [x], rest2. split; [reflexivity|].
              split; [reflexivity|]. rewrite N2, En. simpl. lia.
           ++ rewrite N2, En. reflexivity.
    + intros [c|] prev t t' H.
      * rewrite traverse_children_S in H.
        destruct (negb (ptr_eqb (Some c) prev)).
        -- destruct (traverse fuel h c false true false None t)
             as [t1|] eqn:E1; [|discriminate].
           cbn [bind] in H.
           destruct (IHt _ _ _ _ _ _ _ E1) as (rest1 & L1 & N1).
           destruct (IHc _ _ _ _ H) as (rest2 & L2 & N2).
           exists ((c :: rest1) ++ rest2). split.
           ++ rewrite L2, L1, <- app_assoc. reflexivity.
           ++ rewrite N2, N1. lia.
        -- cbn [bind] in H. exact (IHc _ _ _ _ H).
      * rewrite traverse_children_None in H. injection H as <-.
        exists []. now rewrite app_nil_r.
Qed.

(** X2: on any store, whenever [find] returns, entry 0 is the reference
    link and [0 <= numUpwardConnections < size]; without [doUpward]
    [numUpwardConnections] is 0; with [doUpward] the entries
    [0..numUpwardConnections] are the chain of parent pointers from the
    reference link through the links of its body. *)
Theorem find_shape (fuel : nat) (h : Heap) (x : LinkId)
    (doUpward doDownward : bool) (t0 t : LinkTraverse) :
  find fuel h x doUpward doDownward t0 = Some t ->
  nth_error (links_ t) 0 = Some x /\
  (0 <= numUpwardConnections t < Z.of_nat (length (links_ t)))%Z /\
  (doUpward = false -> numUpwardConnections t = 0%Z) /\
  (doUpward = true ->
   exists chain,
     parent_chain fuel h x = Some chain /\
     firstn (length chain) (links_ t) = chain /\
     numUpwardConnections t = (Z.of_nat (length chain) - 1)%Z).
Proof.
  unfold find. intros H.
  destruct (proj1 (traverse_shape h fuel) _ _ _ _ _ _ _ H) as (rest & L & U).
  cbn [links_ numUpwardConnections app] in L, U.
  split; [rewrite L; reflexivity|].
  destruct doUpward.
  - destruct U as (chain & more & C & S & N).
    destruct (parent_chain_head _ _ _ _ C) as (tl & ->).
    assert (Hlen : (length (x :: tl) <= length (links_ t))%nat).
    { rewrite L, S, length_app. lia. }
    split; [cbn [length] in *; lia|].
    split; [discriminate|]. intros _.
    exists (x :: tl). split; [exact C|]. split; [|lia].
    rewrite L, S. rewrite firstn_app, Nat.sub_diag, firstn_all.
    simpl. now rewrite app_nil_r.
  - split; [rewrite L; cbn [length]; lia|].
    split; [intros _; lia|discriminate].
Qed.

Lemma find_shape_witness :
  nth_error [3; 1; 0; 2] 0 = Some 3 /\
  (0 <= 2 < Z.of_nat (length [3; 1; 0; 2]))%Z /\
  (true = false -> 2%Z = 0%Z) /\
  (true = true ->
   exists chain,
     parent_chain 6 fork_heap 3 = Some chain /\
     firstn (length chain) [3; 1; 0; 2] = chain /\
     2%Z = (Z.of_nat (length chain) - 1)%Z).
Proof.
  apply (find_shape 6 fork_heap 3 true true empty_traverse
           (mkLinkTraverse [3; 1; 0; 2] 2)).
  reflexivity.
Defined.

Lemma find_calcForwardKinematics_witness :
  exists n, forall fuel, n <= fuel ->
    exists t h',
      find fuel fork_heap 3 true true empty_traverse = Some t /\
      NoDup (links_ t) /\
      (forall k link,
          (numUpwardConnections t < Z.of_nat k)%Z ->
          nth_error (links_ t) k = Some link ->
          exists par, Link.parent (fork_heap link) = Some par /\
                      exists j, j < k /\
                                nth_error (links_ t) j = Some par) /\
      calcForwardKinematics true true t fork_heap = Some h'.
Proof.
  apply (find_calcForwardKinematics true true fork_heap 0 fork_forest 3
           empty_traverse).
  - exact fork_mechanism.
  - simpl. tauto.
Defined.

(** ** [find] and then [calcForwardKinematics] *)

Lemma nth_error_last (x : LinkId) (l : list LinkId) :
  nth_error (x :: l) (length l) = Some (last l x).
Proof.
  revert x. induction l as [|y l IH]; intros x; [reflexivity|].
  cbn [length nth_error]. rewrite IH. now rewrite last_cons.
Qed.

(** Along the ancestors every link points to the next one. *)
Lemma up_lays_chain_parent h b :
  forall frames x cx k y p,
    up_lays h b x cx frames ->
    nth_error (x :: map fid frames) k = Some y ->
    nth_error (x :: map fid frames) (S k) = Some p ->
    Link.parent (h y) = Some p.
Proof.
  induction frames as [|G rest IH]; intros x cx k y p Hup Hy Hp.
  - destruct k; discriminate.
  - simpl in Hup. destruct Hup as (Hpx & _ & _ & Hup).
    destruct k as [|k].
    + simpl in Hy, Hp. injection Hy as <-. injection Hp as <-. exact Hpx.
    + exact (IH (fid G) (plug G x cx) k y p Hup Hy Hp).
Qed.

(** The pose relation at the entries of the first loop. *)
Lemma upward_entries_pose cv ca t h h' :
  NoDup (links_ t) ->
  calcForwardKinematics cv ca t h = Some h' ->
  forall k link child,
    (1 <= Z.of_nat k <= numUpwardConnections t)%Z ->
    nth_error (links_ t) k = Some link ->
    nth_error (links_ t) (k - 1) = Some child ->
    orthogonal (Link.Rb (h child)) ->
    (Link.jointType (h child) = ROTATIONAL_JOINT ->
     unit_vector (Link.a (h child))) ->
    downward_pose h' link child.
Proof.
  intros Hnd H k link child Hk Hl Hc Hrb Ha. unfold downward_pose.
  rewrite (proj1 (calcForwardKinematics_entries cv ca t h h' Hnd H)
             k link child Hk Hl Hc).
  destruct (calcForwardKinematics_keeps cv ca t h h' H) as [K _].
  destruct (K child) as (M & _). unfold same_model in M.
  decompose [and] M.
  apply upward_link_pose.
  - congruence.
  - intros Hj. replace (Link.a (h' child)) with (Link.a (h child))
      by congruence.
    apply Ha. congruence.
Qed.

(** X4: whatever link of a mechanism is taken as the reference,
    [find] with both flags followed by [calcForwardKinematics] leaves the
    reference link as it is and every other link of the mechanism in the
    pose that its parent's pose and its own joint give it: the downward
    relation holds across every joint, also across those that the first
    loop has crossed upward.  Every [Rb] is a rotation and every axis of a
    rotational joint a unit vector. *)
Theorem find_calcForwardKinematics_consistent (cv ca : bool) (h : Heap)
    (r : LinkId) (c : forest) (x : LinkId) (t0 : LinkTraverse) :
  mechanism h r c ->
  In x (r :: preorder c) ->
  (forall y, In y (r :: preorder c) ->
             orthogonal (Link.Rb (h y)) /\
             (Link.jointType (h y) = ROTATIONAL_JOINT ->
              unit_vector (Link.a (h y)))) ->
  exists n, forall fuel, n <= fuel ->
    exists t h',
      find fuel h x true true t0 = Some t /\
      calcForwardKinematics cv ca t h = Some h' /\
      h' x = h x /\
      forall y par,
        In y (r :: preorder c) ->
        y <> r ->
        Link.parent (h y) = Some par ->
        downward_pose h' par y.
Proof.
  intros Hm Hin Hgeo.
  destruct (locate_mechanism h r c x Hm Hin)
    as (cx & frames & Hl & Hup & Hp & Hlast).
  assert (Hnd : NoDup (x :: up_part frames ++ preorder cx)).
  { apply Permutation_NoDup with (l := r :: preorder c).
    - symmetry. exact Hp.
    - apply Hm. }
  destruct (find_located h x cx frames Hl Hup Hnd) as [n Hn].
  exists n. intros fuel Hf.
  set (t := mkLinkTraverse (x :: up_part frames ++ preorder cx)
                           (Z.of_nat (length frames))).
  assert (Hseq : links_ t =
                 (x :: map fid frames) ++ (sides frames ++ preorder cx)).
  { simpl. rewrite up_part_sides, <- app_assoc. reflexivity. }
  assert (Hpb : parents_before h (x :: map fid frames)
                  (sides frames ++ preorder cx)).
  { apply (parents_before_sides h (Link.body (h x)) frames x cx);
      [exact Hup| |].
    - intros F HF. right. now apply in_map.
    - rewrite <- (app_nil_r (preorder cx)).
      apply (parents_before_ok h cx x).
      + eapply lays_parents_ok. exact Hl.
      + apply in_or_app. left. now left.
      + exact I. }
  assert (Hchain : length (x :: map fid frames) = S (length frames)).
  { simpl. now rewrite length_map. }
  assert (Hpar : forall k link,
             (numUpwardConnections t < Z.of_nat k)%Z ->
             nth_error (links_ t) k = Some link ->
             exists par, Link.parent (h link) = Some par /\
                         exists j, j < k /\
                                   nth_error (links_ t) j = Some par).
  { intros k link Hk Hlk. rewrite Hseq in *.
    apply (parents_before_nth h _ _ Hpb k link); [|exact Hlk].
    rewrite Hchain. simpl in Hk. lia. }
  destruct (calcForwardKinematics_total cv ca t h) as [h' Hh'].
  { rewrite Hseq. simpl. rewrite !length_app, length_map. lia. }
  { intros k link _ Hk Hlk.
    destruct (Hpar k link Hk Hlk) as (par & E & _). congruence. }
  exists t, h'. split; [apply Hn; exact Hf|]. split; [exact Hh'|].
  split.
  { apply (calcForwardKinematics_keeps cv ca t h h' Hh').
    simpl. inversion Hnd. assumption. }
  intros y par Hy Hyr Hypar.
  assert (Hyt : In y (links_ t)).
  { apply (Permutation_in y (Permutation_sym Hp)). exact Hy. }
  destruct (In_nth_error _ _ Hyt) as [k Hk].
  destruct (Nat.le_gt_cases k (length frames)) as [Hle|Hgt].
  - (* [y] is the reference link or one of its ancestors *)
    assert (Hkc : nth_error (x :: map fid frames) k = Some y).
    { rewrite Hseq, nth_error_app1 in Hk by (rewrite Hchain; lia).
      exact Hk. }
    assert (Hlt : k < length frames).
    { destruct (Nat.eq_dec k (length frames)) as [->|]; [|lia].
      exfalso. apply Hyr.
      rewrite <- (length_map fid frames), nth_error_last in Hkc.
      congruence. }
    destruct (nth_error (x :: map fid frames) (S k)) as [p|] eqn:Ep.
    2:{ apply nth_error_None in Ep. rewrite Hchain in Ep. lia. }
    assert (Hpp : Link.parent (h y) = Some p)
      by exact (up_lays_chain_parent h _ frames x cx k y p Hup Hkc Ep).
    assert (p = par) by congruence. subst p.
    apply (upward_entries_pose cv ca t h h' Hnd Hh' (S k) par y).
    + simpl. lia.
    + rewrite Hseq, nth_error_app1 by (rewrite Hchain; lia). exact Ep.
    + replace (S k - 1) with k by lia. exact Hk.
    + apply Hgeo. exact Hy.
    + apply Hgeo. exact Hy.
  - (* [y] is an entry of the second loop *)
    assert (HU : (numUpwardConnections t < Z.of_nat k)%Z)
      by (simpl; lia).
    destruct (Hpar k y HU Hk) as (p & Hpp & Hj).
    assert (p = par) by congruence. subst p.
    apply (calcForwardKinematics_downward_pose cv ca t h h' Hnd Hh' k y par);
      [lia|exact HU|exact Hk|exact Hypar|exact Hj].
Qed.

Open Scope R_scope.

Lemma find_calcForwardKinematics_consistent_witness :
  exists n, forall fuel, (n <= fuel)%nat ->
    exists t h',
      find fuel fork_heap 3%nat true true empty_traverse = Some t /\
      calcForwardKinematics true true t fork_heap = Some h' /\
      h' 3%nat = fork_heap 3%nat /\
      forall y par,
        In y (0%nat :: preorder fork_forest) ->
        y <> 0%nat ->
        Link.parent (fork_heap y) = Some par ->
        downward_pose h' par y.
Proof.
  apply (find_calcForwardKinematics_consistent true true fork_heap 0%nat
           fork_forest 3%nat empty_traverse).
  - exact fork_mechanism.
  - simpl. tauto.
  - intros y Hy. simpl in Hy.
    destruct Hy as [<-|[<-|[<-|[<-|[]]]]];
      (split; [unfold orthogonal; simpl; coords; f_equal; ring
              |intros; discriminate]).
Defined.

Close Scope R_scope.

(** ** Where [calcForwardKinematics] is defined *)

Lemma upward_loop_some_bounds cv ca t :
  forall n i h h',
    upward_loop n cv ca t i h = Some h' ->
    forall k, i <= k < i + n -> k < length (links_ t).
Proof.
  induction n as [|n IH]; intros i h h' H k Hk; [lia|].
  simpl in H.
  destruct (nth_error (links_ t) i) as [link|] eqn:El; [|discriminate].
  destruct (nth_error (links_ t) (i - 1)) as [child|]; [|discriminate].
  cbn [bind] in H.
  destruct (Nat.eq_dec k i) as [->|Hne].
  - apply nth_error_Some. congruence.
  - apply (IH (S i) _ h' H). lia.
Qed.

Lemma downward_loop_some_parents cv ca t :
  forall n i h h',
    downward_loop n cv ca t i h = Some h' ->
    forall k link,
      i <= k < i + n ->
      nth_error (links_ t) k = Some link ->
      Link.parent (h link) <> None.
Proof.
  induction n as [|n IH]; intros i h h' H k link Hk Hl; [lia|].
  simpl in H.
  destruct (nth_error (links_ t) i) as [link0|] eqn:El; [|discriminate].
  cbn [bind] in H.
  destruct (Link.parent (h link0)) as [par0|] eqn:Ep; [|discriminate].
  cbn [bind] in H.
  destruct (Nat.eq_dec k i) as [->|Hne].
  - rewrite El in Hl. injection Hl as <-. congruence.
  - assert (Hk' : S i <= k < S i + n) by lia.
    pose proof (IH (S i) _ h' H k link Hk' Hl) as Hp.
    destruct (downward_step_frame cv ca link0 par0 h link) as (_ & M & _).
    unfold same_model in M. destruct M as (M & _). now rewrite <- M.
Qed.

(** What a run of [calcForwardKinematics] that returns has met. *)
Lemma calcForwardKinematics_some_inv cv ca t h h' :
  calcForwardKinematics cv ca t h = Some h' ->
  (numUpwardConnections t <= 0 \/
   numUpwardConnections t < Z.of_nat (length (links_ t)))%Z /\
  (forall k link,
      1 <= k -> (numUpwardConnections t < Z.of_nat k)%Z ->
      nth_error (links_ t) k = Some link ->
      Link.parent (h link) <> None).
Proof.
  unfold calcForwardKinematics. intros H.
  set (up := Z.to_nat (numUpwardConnections t)) in *.
  destruct (upward_loop up cv ca t 1 h) as [h1|] eqn:E1; [|discriminate].
  cbn [bind] in H. split.
  - destruct (Z_le_gt_dec (numUpwardConnections t) 0) as [Hle|Hgt];
      [now left|right].
    pose proof (upward_loop_some_bounds cv ca t up 1 h h1 E1 up) as Hb.
    unfold up in *. lia.
  - intros k link Hk1 Hk Hl.
    assert (Hlen : k < length (links_ t)).
    { apply nth_error_Some. congruence. }
    assert (Hr : S up <= k < S up + (length (links_ t) - S up))
      by (unfold up; lia).
    pose proof (downward_loop_some_parents cv ca t _ _ h1 h' H k link Hr Hl)
      as Hp.
    destruct (upward_loop_frame cv ca t up 1 h h1 (le_n 1) E1 link)
      as ((M & _) & _).
    unfold same_model in M. destruct M as (M & _). now rewrite <- M.
Qed.

(** The conditions under which it returns. *)
Lemma calcForwardKinematics_runs cv ca t h :
  (numUpwardConnections t <= 0 \/
   numUpwardConnections t < Z.of_nat (length (links_ t)))%Z ->
  (forall k link,
      1 <= k -> (numUpwardConnections t < Z.of_nat k)%Z ->
      nth_error (links_ t) k = Some link ->
      Link.parent (h link) <> None) ->
  exists h', calcForwardKinematics cv ca t h = Some h'.
Proof.
  intros HU Hpar. unfold calcForwardKinematics.
  set (up := Z.to_nat (numUpwardConnections t)).
  destruct (upward_loop_total cv ca t up 1 h (le_n 1)) as [h1 E1].
  { intros k Hk. unfold up in Hk. lia. }
  rewrite E1. cbn [bind].
  apply downward_loop_total.
  - intros k Hk. lia.
  - intros k y Hk Hy.
    destruct (upward_loop_frame cv ca t up 1 h h1 (le_n 1) E1 y)
      as ((M & _) & _).
    unfold same_model in M. destruct M as (M & _). rewrite M.
    apply (Hpar k y); [lia|unfold up in Hk; lia|exact Hy].
Qed.

(** X5: [calcForwardKinematics] runs without an access out of the bounds
    of [links_] and without a null [parent()] exactly when
    [numUpwardConnections] is at most 0 or an index of the sequence, and
    every entry after index 0 and after [numUpwardConnections] has a
    parent pointer.  A negative [numUpwardConnections] is harmless, one
    that reaches the size is not. *)
Theorem calcForwardKinematics_defined (cv ca : bool) (t : LinkTraverse)
    (h : Heap) :
  (exists h', calcForwardKinematics cv ca t h = Some h') <->
  ((numUpwardConnections t <= 0 \/
    numUpwardConnections t < Z.of_nat (length (links_ t)))%Z /\
   (forall k link,
       1 <= k -> (numUpwardConnections t < Z.of_nat k)%Z ->
       nth_error (links_ t) k = Some link ->
       Link.parent (h link) <> None)).
Proof.
  split.
  - intros [h' H]. exact (calcForwardKinematics_some_inv cv ca t h h' H).
  - intros [HU Hpar]. exact (calcForwardKinematics_runs cv ca t h HU Hpar).
Qed.

(** ** [calcForwardKinematics] run again *)

Lemma upward_link_idem cv ca (chi l : Link.t) :
  upward_link cv ca chi (upward_link cv ca chi l) = upward_link cv ca chi l.
Proof.
  destruct chi as [? ? ? ? jt cq cdq cddq ca' cd cb cRb cR cp cw cv' cdw cdv].
  destruct l as [? ? ? ? ? ? ? ? ? ? ? ? lR lp lw lv ldw ldv].
  destruct jt, cv, ca; reflexivity.
Qed.

Lemma downward_link_idem cv ca (par l : Link.t) :
  downward_link cv ca par (downward_link cv ca par l) =
  downward_link cv ca par l.
Proof.
  destruct par as [? ? ? ? ? ? ? ? ? ? ? ? Rp pp wp vp dwp dvp].
  destruct l as [? ? ? ? jt lq ldq lddq la ld lb lRb ? ? ? ? ? ?].
  destruct jt, cv, ca; reflexivity.
Qed.

(** X6: [calcForwardKinematics] is idempotent.  On a traversal without
    repetitions in which every entry of the second loop has its parent
    among the entries before it, a second run with the same flags returns
    and leaves every link as the first run has left it. *)
Theorem calcForwardKinematics_idempotent (cv ca : bool) (t : LinkTraverse)
    (h h' : Heap) :
  NoDup (links_ t) ->
  (forall k link,
      1 <= k -> (numUpwardConnections t < Z.of_nat k)%Z ->
      nth_error (links_ t) k = Some link ->
      exists par, Link.parent (h link) = Some par /\
                  exists j, j < k /\ nth_error (links_ t) j = Some par) ->
  calcForwardKinematics cv ca t h = Some h' ->
  exists h'',
    calcForwardKinematics cv ca t h' = Some h'' /\
    forall x, h'' x = h' x.
Proof.
  intros Hnd Hpar H.
  destruct (calcForwardKinematics_keeps cv ca t h h' H) as [K1 _].
  assert (Par : forall y, Link.parent (h' y) = Link.parent (h y)).
  { intros y. destruct (K1 y) as (M & _). apply M. }
  destruct (calcForwardKinematics_some_inv cv ca t h h' H) as [HU Hnn].
  destruct (calcForwardKinematics_runs cv ca t h' HU) as [h'' H2].
  { intros k link Hk1 Hk Hl. rewrite Par. exact (Hnn k link Hk1 Hk Hl). }
  exists h''. split; [exact H2|].
  destruct (calcForwardKinematics_entries cv ca t h h' Hnd H) as [Up1 Dn1].
  destruct (calcForwardKinematics_entries cv ca t h' h'' Hnd H2)
    as [Up2 Dn2].
  destruct (calcForwardKinematics_keeps cv ca t h' h'' H2) as [_ F2].
  assert (Ent : forall k link,
             nth_error (links_ t) k = Some link -> h'' link = h' link).
  { induction k as [k IH] using lt_wf_ind. intros link Hl.
    destruct k as [|k].
    - apply F2. destruct (links_ t) as [|y l]; [discriminate|].
      simpl in Hl. injection Hl as <-. simpl. now inversion Hnd.
    - destruct (Z_le_gt_dec (Z.of_nat (S k)) (numUpwardConnections t))
        as [Hle|Hgt].
      + destruct (nth_error (links_ t) k) as [child|] eqn:Ec.
        2:{ apply nth_error_None in Ec.
            assert (S k < length (links_ t))
              by (apply nth_error_Some; congruence). lia. }
        assert (Ec' : nth_error (links_ t) (S k - 1) = Some child)
          by (replace (S k - 1) with k by lia; exact Ec).
        rewrite (Up2 (S k) link child) by (assumption || lia).
        rewrite (IH k (Nat.lt_succ_diag_r k) child Ec).
        rewrite (Up1 (S k) link child) by (assumption || lia).
        apply upward_link_idem.
      + assert (Hk1 : 1 <= S k) by lia.
        assert (HkU : (numUpwardConnections t < Z.of_nat (S k))%Z) by lia.
        destruct (Hpar (S k) link Hk1 HkU Hl) as (par & Hp & j & Hj & Hjp).
        assert (Hp' : Link.parent (h' link) = Some par)
          by (rewrite Par; exact Hp).
        rewrite (Dn2 (S k) link par Hk1 HkU Hl Hp') by eauto.
        rewrite (IH j Hj par Hjp).
        rewrite (Dn1 (S k) link par Hk1 HkU Hl Hp) by eauto.
        apply downward_link_idem. }
  intros x.
  destruct (in_dec Nat.eq_dec x (links_ t)) as [Hin|Hin].
  - destruct (In_nth_error _ _ Hin) as [k Hk]. exact (Ent k x Hk).
  - apply F2. intros Hx. apply Hin.
    destruct (links_ t); [destruct Hx|]. now right.
Qed.

Lemma calcForwardKinematics_idempotent_witness :
  exists h'',
    calcForwardKinematics true true root_and_child turning_result
      = Some h'' /\
    forall x, h'' x = turning_result x.
Proof.
  apply (calcForwardKinematics_idempotent true true root_and_child
           turning_heap turning_result).
  - repeat constructor; simpl; intuition discriminate.
  - intros k link Hk1 Hk Hl.
    destruct k as [|[|k]]; [lia| |destruct k; discriminate].
    simpl in Hl. injection Hl as <-.
    exists 0. split; [reflexivity|].
    exists 0. split; [lia|reflexivity].
  - reflexivity.
Defined.

(** ** The edits of a traversal *)

Lemma nth_error_split_at (l : list LinkId) (k : nat) (x : LinkId) :
  nth_error l k = Some x -> l = firstn k l ++ x :: skipn (S k) l.
Proof.
  revert k. induction l as [|y l IH]; intros k H.
  - destruct k; discriminate.
  - destruct k as [|k]; simpl in *.
    + now injection H as ->.
    + f_equal. apply IH. exact H.
Qed.

Lemma remove_cases link t :
  (~ In link (links_ t) /\ remove link t = (false, t)) \/
  (exists k,
      nth_error (links_ t) k = Some link /\
      ~ In link (firstn k (links_ t)) /\
      remove link t =
      (true,
       mkLinkTraverse
         (firstn k (links_ t) ++ skipn (S k) (links_ t))
         (if (Z.of_nat k <=? numUpwardConnections t)%Z
          then numUpwardConnections t - 1
          else numUpwardConnections t)%Z)).
Proof.
  destruct (in_dec Nat.eq_dec link (links_ t)) as [Hin|Hin].
  - right. destruct (first_occurrence link _ Hin) as (k & Hk & Hf).
    exists k. split; [exact Hk|]. split; [exact Hf|].
    exact (remove_present link t k Hk Hf).
  - left. split; [exact Hin|]. exact (remove_absent link t Hin).
Qed.

(** X7: [find] aside, the edits keep [numUpwardConnections] an index of
    the sequence: if [numUpwardConnections < size] holds before [append],
    [remove] or [prependRootAdjacentLinkToward], it holds after.  [remove]
    lowers a non-negative [numUpwardConnections] to -1 at most. *)
Theorem in_bounds_preserved (t : LinkTraverse) :
  in_bounds t ->
  (forall link isDownward, in_bounds (append link isDownward t)) /\
  (forall link,
      in_bounds (snd (remove link t)) /\
      ((0 <= numUpwardConnections t)%Z ->
       (-1 <= numUpwardConnections (snd (remove link t)))%Z)) /\
  (forall fuel h target r t',
      prependRootAdjacentLinkToward fuel h target t = Some (r, t') ->
      in_bounds t').
Proof.
  unfold in_bounds. intros Hb. split; [|split].
  - intros link d. unfold append.
    destruct d; simpl; rewrite length_app; simpl; lia.
  - intros link.
    destruct (remove_cases link t) as [(_ & ->)|(k & Hk & _ & ->)].
    + simpl. split; [exact Hb|lia].
    + cbn [snd links_ numUpwardConnections].
      assert (Hlt : k < length (links_ t)).
      { apply nth_error_Some. congruence. }
      rewrite length_app, length_firstn, length_skipn.
      destruct (Z.leb_spec (Z.of_nat k) (numUpwardConnections t)); lia.
  - intros fuel h target r t' H.
    unfold prependRootAdjacentLinkToward in H.
    destruct t as [[|F rest] U]; cbn [links_ numUpwardConnections] in *.
    + injection H as _ <-. exact Hb.
    + destruct (findRootAdjacentLink fuel h target None F true)
        as [[[N|] u]|]; cbn [bind] in H; [| |discriminate].
      * injection H as _ <-. destruct u; simpl in *; lia.
      * injection H as _ <-. exact Hb.
Qed.

Lemma in_bounds_preserved_witness :
  (forall link isDownward,
      in_bounds (append link isDownward root_and_child)) /\
  (forall link,
      in_bounds (snd (remove link root_and_child)) /\
      ((0 <= numUpwardConnections root_and_child)%Z ->
       (-1 <= numUpwardConnections (snd (remove link root_and_child)))%Z)) /\
  (forall fuel h target r t',
      prependRootAdjacentLinkToward fuel h target root_and_child
        = Some (r, t') ->
      in_bounds t').
Proof.
  apply (in_bounds_preserved root_and_child).
  unfold in_bounds. simpl. lia.
Defined.

(** X8: [append] and then [remove] of a link that was not in the
    traversal.  After [append(link, true)] the [remove] gives the
    traversal back.  After [append(link, false)] it gives the sequence
    back, but [numUpwardConnections] only when the traversal was all
    upward chain ([size = numUpwardConnections + 1]); otherwise the count
    stays one too high. *)
Theorem append_then_remove (link : LinkId) (t : LinkTraverse) :
  ~ In link (links_ t) ->
  in_bounds t ->
  remove link (append link true t) = (true, t) /\
  remove link (append link false t) =
  (true,
   if (Z.of_nat (length (links_ t)) =? numUpwardConnections t + 1)%Z
   then t else incr t).
Proof.
  unfold in_bounds. intros Hn Hb. destruct t as [l U]. simpl in *.
  assert (Hk : nth_error (l ++ [link]) (length l) = Some link).
  { rewrite nth_error_app2, Nat.sub_diag by lia. reflexivity. }
  assert (Hf : ~ In link (firstn (length l) (l ++ [link]))).
  { rewrite firstn_app, Nat.sub_diag, firstn_all. simpl.
    now rewrite app_nil_r. }
  assert (Hl : firstn (length l) (l ++ [link]) ++
               skipn (S (length l)) (l ++ [link]) = l).
  { rewrite skipn_all2 by (rewrite length_app; simpl; lia).
    rewrite firstn_app, Nat.sub_diag, firstn_all. simpl.
    now rewrite !app_nil_r. }
  split.
  - rewrite (remove_present link (append link true (mkLinkTraverse l U))
               (length l) Hk Hf).
    cbn [append negb push_back links_ numUpwardConnections]. rewrite Hl.
    destruct (Z.leb_spec (Z.of_nat (length l)) U); [lia|reflexivity].
  - rewrite (remove_present link (append link false (mkLinkTraverse l U))
               (length l) Hk Hf).
    cbn [append negb push_back incr links_ numUpwardConnections].
    rewrite Hl.
    destruct (Z.leb_spec (Z.of_nat (length l)) (U + 1)),
             (Z.eqb_spec (Z.of_nat (length l)) (U + 1));
      try lia; do 2 f_equal; lia.
Qed.

Lemma append_then_remove_witness :
  remove 5 (append 5 true root_and_child) = (true, root_and_child) /\
  remove 5 (append 5 false root_and_child) =
  (true,
   if (Z.of_nat (length (links_ root_and_child)) =?
       numUpwardConnections root_and_child + 1)%Z
   then root_and_child else incr root_and_child).
Proof.
  apply (append_then_remove 5 root_and_child).
  - simpl. intuition discriminate.
  - unfold in_bounds. simpl. lia.
Defined.

Lemma appended_from (ops : list (LinkId * bool)) :
  forall t,
    links_ (fold_left (fun t op => append (fst op) (snd op) t) ops t) =
    links_ t ++ map fst ops /\
    numUpwardConnections
      (fold_left (fun t op => append (fst op) (snd op) t) ops t) =
    (numUpwardConnections t +
     Z.of_nat (length (filter (fun op => negb (snd op)) ops)))%Z.
Proof.
  induction ops as [|[link d] ops IH]; intros t.
  - simpl. rewrite app_nil_r. split; [reflexivity|lia].
  - cbn [fold_left fst snd]. destruct (IH (append link d t)) as [L U].
    rewrite L, U. unfold append.
    destruct d; simpl; rewrite <- app_assoc; split;
      try reflexivity; lia.
Qed.

(** X9: a traversal built by [clear] and a sequence of [append]s lists
    the appended links in order, and its [numUpwardConnections] is the
    number of appends with [isDownward = false].  When every append of a
    non-empty sequence is an upward one, [numUpwardConnections] equals
    the size, and [calcForwardKinematics] indexes [links_] out of its
    bounds. *)
Theorem appended_upward_only (ops : list (LinkId * bool))
    (t : LinkTraverse) :
  links_ (appended ops t) = map fst ops /\
  numUpwardConnections (appended ops t) =
    Z.of_nat (length (filter (fun op => negb (snd op)) ops)) /\
  (ops <> [] ->
   (forall op, In op ops -> snd op = false) ->
   forall cv ca h, calcForwardKinematics cv ca (appended ops t) h = None).
Proof.
  unfold appended. destruct (appended_from ops (clear t)) as [L U].
  simpl in L, U. split; [exact L|]. split; [exact U|].
  intros Hne Hall cv ca h.
  destruct (calcForwardKinematics cv ca _ h) as [h'|] eqn:E; [|reflexivity].
  exfalso.
  destruct (calcForwardKinematics_some_inv cv ca _ h h' E) as [HU _].
  rewrite L, U, length_map in HU.
  assert (Hf : filter (fun op : LinkId * bool => negb (snd op)) ops = ops).
  { clear - Hall. induction ops as [|op ops IH]; [reflexivity|].
    simpl. rewrite (Hall op) by now left. simpl. f_equal.
    apply IH. intros o Ho. apply Hall. now right. }
  rewrite Hf in HU. destruct ops; [congruence|]. simpl in HU. lia.
Qed.

Lemma appended_upward_only_witness :
  calcForwardKinematics true true (appended [(4, false)] empty_traverse)
    fork_heap = None.
Proof.
  apply (proj2 (proj2 (appended_upward_only [(4, false)] empty_traverse))).
  - discriminate.
  - intros op [<-|[]]. reflexivity.
Defined.

(** X11: on a traversal without repetitions, [remove] leaves a traversal
    without repetitions that holds the other links and not the removed
    one, and removing the same link again returns [false] and changes
    nothing. *)
Theorem remove_twice (link : LinkId) (t : LinkTraverse) :
  NoDup (links_ t) ->
  NoDup (links_ (snd (remove link t))) /\
  (forall y, In y (links_ (snd (remove link t))) <->
             In y (links_ t) /\ y <> link) /\
  remove link (snd (remove link t)) = (false, snd (remove link t)).
Proof.
  intros Hnd.
  destruct (remove_cases link t) as [(Hn & ->)|(k & Hk & _ & ->)].
  - cbn [snd]. split; [exact Hnd|]. split.
    + intros y. split; [|tauto]. intros Hy. split; [exact Hy|].
      intros ->. contradiction.
    + exact (remove_absent link t Hn).
  - cbn [snd links_].
    pose proof (nth_error_split_at _ _ _ Hk) as Hs.
    remember (firstn k (links_ t)) as l1 eqn:E1.
    remember (skipn (S k) (links_ t)) as l2 eqn:E2.
    clear E1 E2 Hk. destruct t as [l U]. cbn [links_] in *. subst l.
    apply NoDup_remove in Hnd. destruct Hnd as [Hnd Hx].
    split; [exact Hnd|]. split.
    + intros y. rewrite !in_app_iff. simpl. split.
      * intros Hy. split; [tauto|]. intros ->. apply Hx.
        apply in_or_app. exact Hy.
      * intros [[Hy|[Hy|Hy]] Hne]; [tauto|congruence|tauto].
    + apply remove_absent. exact Hx.
Qed.

Lemma remove_twice_witness :
  NoDup (links_ (snd (remove 1 (mkLinkTraverse [3; 1; 0; 2] 2)))) /\
  (forall y,
      In y (links_ (snd (remove 1 (mkLinkTraverse [3; 1; 0; 2] 2)))) <->
      In y (links_ (mkLinkTraverse [3; 1; 0; 2] 2)) /\ y <> 1) /\
  remove 1 (snd (remove 1 (mkLinkTraverse [3; 1; 0; 2] 2))) =
  (false, snd (remove 1 (mkLinkTraverse [3; 1; 0; 2] 2))).
Proof.
  apply (remove_twice 1 (mkLinkTraverse [3; 1; 0; 2] 2)).
  repeat constructor; simpl; intuition discriminate.
Defined.

(** ** The search on any store *)

Lemma nth_sibling_step h :
  forall k start c,
    nth_sibling h k start = Some c ->
    nth_sibling h (S k) start = Link.sibling (h c).
Proof.
  induction k as [|k IH]; intros start c H.
  - simpl in H. subst start. reflexivity.
  - destruct start as [x|]; [|discriminate].
    change (nth_sibling h (S k) (Link.sibling (h x)) = Link.sibling (h c)).
    apply IH. exact H.
Qed.

(** Whatever the pointers of the store are, a link that the search
    returns is next to [F]: found on the way up, it has [F] as its parent
    pointer and the flag is still set; found on the way down, it has [F]
    among its children and the flag is cleared. *)
Lemma findRootAdjacentLink_sound h F :
  forall fuel,
    (forall link prev u r u',
        findRootAdjacentLink fuel h link prev F u = Some (r, u') ->
        (u = false -> u' = false) /\
        (forall N, r = Some N ->
                   (link = F /\ prev = Some N /\ u' = u) \/
                   (u' = true /\ Link.parent (h N) = Some F) \/
                   (u' = false /\ in_child_list h N F))) /\
    (forall link c prev r u' k,
        nth_sibling h k (Link.child (h link)) = c ->
        findRootAdjacentLink_children fuel h link c prev F false
          = Some (r, u') ->
        u' = false /\ forall N, r = Some N -> in_child_list h N F).
Proof.
  induction fuel as [|fuel [IH1 IH2]].
  - split; [intros; discriminate|].
    intros link [c|] prev r u' k _ H; [discriminate|].
    injection H as <- <-. split; [reflexivity|discriminate].
  - split.
    + intros link prev u r u' H. rewrite findRootAdjacentLink_S in H.
      destruct (Nat.eqb link F) eqn:EF.
      { apply Nat.eqb_eq in EF. injection H as <- <-.
        split; [tauto|]. intros N ->. left. auto. }
      (* the loop over the children, entered with the flag cleared *)
      assert (Down :
                findRootAdjacentLink_children fuel h link
                  (Link.child (h link)) prev F false = Some (r, u') ->
                (u = false -> u' = false) /\
                (forall N, r = Some N ->
                           (link = F /\ prev = Some N /\ u' = u) \/
                           (u' = true /\ Link.parent (h N) = Some F) \/
                           (u' = false /\ in_child_list h N F))).
      { intros Hc.
        destruct (IH2 link _ prev r u' 0 eq_refl Hc) as [Hu HN].
        split; [intros _; exact Hu|]. intros N HrN. right. right.
        split; [exact Hu|]. exact (HN N HrN). }
      destruct u; cbn [bind] in H; [|exact (Down H)].
      destruct (Link.parent (h link)) as [p|] eqn:Ep;
        cbn [bind] in H; [|exact (Down H)].
      destruct (negb (ptr_eqb (Some p) prev));
        cbn [bind] in H; [|exact (Down H)].
      destruct (findRootAdjacentLink fuel h p (Some link) F true)
        as [[[found|] uu]|] eqn:Eup; cbn [bind] in H;
        [|exact (Down H)|discriminate].
      injection H as <- <-. split; [discriminate|].
      intros N [= <-].
      destruct (IH1 p (Some link) true (Some found) uu Eup) as [_ HN].
      destruct (HN found eq_refl) as [(HpF & Hl & Hu)|[Hb|Hc]].
      * injection Hl as <-. right. left. split; [exact Hu|].
        rewrite Ep, HpF. reflexivity.
      * right. left. exact Hb.
      * right. right. exact Hc.
    + intros link [c|] prev r u' k Hk H.
      2:{ rewrite findRootAdjacentLink_children_None in H.
          injection H as <- <-. split; [reflexivity|discriminate]. }
      rewrite findRootAdjacentLink_children_S in H.
      pose proof (nth_sibling_step h k _ c Hk) as Hk'.
      destruct (negb (ptr_eqb (Some c) prev)); cbn [bind] in H.
      * destruct (findRootAdjacentLink fuel h c (Some link) F false)
          as [[[found|] uu]|] eqn:Ec; cbn [bind] in H; [| |discriminate].
        -- injection H as <- <-.
           destruct (IH1 c (Some link) false (Some found) uu Ec)
             as [Hu HN].
           split; [exact (Hu eq_refl)|]. intros N [= <-].
           destruct (HN found eq_refl) as [(HcF & Hl & _)|[(Ht & _)|(_ & Hc)]].
           ++ injection Hl as <-. exists k. rewrite Hk, HcF. reflexivity.
           ++ rewrite (Hu eq_refl) in Ht. discriminate.
           ++ exact Hc.
        -- destruct (IH1 c (Some link) false None uu Ec) as [Hu _].
           rewrite (Hu eq_refl) in H.
           exact (IH2 link _ prev r u' (S k) Hk' H).
      * exact (IH2 link _ prev r u' (S k) Hk' H).
Qed.

(** X10: on any store, whenever [prependRootAdjacentLinkToward] returns a
    link, that link is directly connected to the old front entry and the
    count follows the connection: either [numUpwardConnections] is
    incremented and the old front entry is the parent pointer of the
    returned link, or it is unchanged and the old front entry is among the
    children of the returned link.  The returned link is put in front of
    the unchanged sequence. *)
Theorem prependRootAdjacentLinkToward_sound (fuel : nat) (h : Heap)
    (target : LinkId) (t t' : LinkTraverse) (N : LinkId) :
  prependRootAdjacentLinkToward fuel h target t = Some (Some N, t') ->
  exists front rest,
    links_ t = front :: rest /\
    links_ t' = N :: front :: rest /\
    ((numUpwardConnections t' = (numUpwardConnections t + 1)%Z /\
      Link.parent (h N) = Some front) \/
     (numUpwardConnections t' = numUpwardConnections t /\
      in_child_list h N front)).
Proof.
  intros H. unfold prependRootAdjacentLinkToward in H.
  destruct t as [[|F rest] U]; cbn [links_ numUpwardConnections] in *;
    [discriminate|].
  destruct (findRootAdjacentLink fuel h target None F true)
    as [[[found|] u]|] eqn:E; cbn [bind] in H; try discriminate.
  exists F, rest. split; [reflexivity|].
  destruct (proj1 (findRootAdjacentLink_sound h F fuel)
              target None true (Some found) u E) as [_ HN].
  destruct (HN found eq_refl) as [(_ & Hp & _)|[(Hu & Hp)|(Hu & Hc)]].
  - discriminate.
  - subst u. injection H as <- <-. split; [reflexivity|]. left. auto.
  - subst u. injection H as <- <-. split; [reflexivity|]. right. auto.
Qed.

Lemma prependRootAdjacentLinkToward_sound_witness :
  exists front rest,
    links_ (mkLinkTraverse [2%nat] 0%Z) = front :: rest /\
    links_ (mkLinkTraverse [0%nat; 2%nat] 0%Z) = 0%nat :: front :: rest /\
    ((numUpwardConnections (mkLinkTraverse [0%nat; 2%nat] 0%Z) =
      (numUpwardConnections (mkLinkTraverse [2%nat] 0%Z) + 1)%Z /\
      Link.parent (fork_heap 0%nat) = Some front) \/
     (numUpwardConnections (mkLinkTraverse [0%nat; 2%nat] 0%Z) =
      numUpwardConnections (mkLinkTraverse [2%nat] 0%Z) /\
      in_child_list fork_heap 0%nat front)).
Proof.
  apply (prependRootAdjacentLinkToward_sound 9%nat fork_heap 3%nat
           (mkLinkTraverse [2%nat] 0%Z) (mkLinkTraverse [0%nat; 2%nat] 0%Z) 0%nat).
  reflexivity.
Defined.

(** ** What the poses depend on *)

Lemma upward_link_same_pose cv ca cv' ca' (chi chi' l l' : Link.t) :
  same_joint chi chi' -> same_pose chi chi' ->
  same_pose (upward_link cv ca chi l) (upward_link cv' ca' chi' l').
Proof.
  destruct chi as [? ? ? ? jt cq cdq cddq ca0 cd cb cRb cR cp cw cv0 cdw cdv].
  destruct chi' as [? ? ? ? jt' cq' ? ? ca1 cd' cb' cRb' cR' cp' ? ? ? ?].
  destruct l as [? ? ? ? ? ? ? ? ? ? ? ? lR lp lw lv ldw ldv].
  destruct l' as [? ? ? ? ? ? ? ? ? ? ? ? lR' lp' lw' lv' ldw' ldv'].
  unfold same_joint, same_pose. cbn [Link.jointType Link.q Link.a Link.d
    Link.b Link.Rb Link.R Link.p].
  intros (-> & -> & -> & -> & -> & ->) (-> & ->).
  destruct jt, cv, ca, cv', ca'; split; reflexivity.
Qed.

Lemma downward_link_same_pose cv ca cv' ca' (par par' l l' : Link.t) :
  same_pose par par' -> same_joint l l' ->
  same_pose (downward_link cv ca par l) (downward_link cv' ca' par' l').
Proof.
  destruct par as [? ? ? ? ? ? ? ? ? ? ? ? Rp pp wp vp dwp dvp].
  destruct par' as [? ? ? ? ? ? ? ? ? ? ? ? Rp' pp' wp' vp' dwp' dvp'].
  destruct l as [? ? ? ? jt lq ldq lddq la ld lb lRb ? ? ? ? ? ?].
  destruct l' as [? ? ? ? jt' lq' ldq' lddq' la' ld' lb' lRb' ? ? ? ? ? ?].
  unfold same_joint, same_pose. cbn [Link.jointType Link.q Link.a Link.d
    Link.b Link.Rb Link.R Link.p].
  intros (-> & ->) (-> & -> & -> & -> & -> & ->).
  destruct jt, cv, ca, cv', ca'; split; reflexivity.
Qed.

(** X12: the poses that [calcForwardKinematics] writes depend only on the
    pose of the front entry, on the joint type, joint displacement, axis
    and offsets of the entries, and on the parent pointers.  Two runs on
    two stores that agree on these, with any flags and any other contents
    of the links (stale poses, velocities, accelerations), leave every
    entry of the traversal with the same [R] and [p]. *)
Theorem calcForwardKinematics_pose_determined (cv ca cv' ca' : bool)
    (t : LinkTraverse) (h g h' g' : Heap) :
  NoDup (links_ t) ->
  (forall k link,
      1 <= k -> (numUpwardConnections t < Z.of_nat k)%Z ->
      nth_error (links_ t) k = Some link ->
      exists par, Link.parent (h link) = Some par /\
                  Link.parent (g link) = Some par /\
                  exists j, j < k /\ nth_error (links_ t) j = Some par) ->
  (forall x, In x (links_ t) -> same_joint (h x) (g x)) ->
  (forall front, nth_error (links_ t) 0 = Some front ->
                 same_pose (h front) (g front)) ->
  calcForwardKinematics cv ca t h = Some h' ->
  calcForwardKinematics cv' ca' t g = Some g' ->
  forall x, In x (links_ t) -> same_pose (h' x) (g' x).
Proof.
  intros Hnd Hpar Hj Hfront H G.
  destruct (calcForwardKinematics_keeps cv ca t h h' H) as [K1 F1].
  destruct (calcForwardKinematics_keeps cv' ca' t g g' G) as [K2 F2].
  destruct (calcForwardKinematics_entries cv ca t h h' Hnd H) as [Up1 Dn1].
  destruct (calcForwardKinematics_entries cv' ca' t g g' Hnd G)
    as [Up2 Dn2].
  assert (J' : forall x, In x (links_ t) -> same_joint (h' x) (g' x)).
  { intros x Hx. pose proof (Hj x Hx) as J.
    destruct (K1 x) as ((_ & _ & _ & _ & a1 & a2 & _ & _ & a3 & a4 & a5 & a6)
                        & _).
    destruct (K2 x) as ((_ & _ & _ & _ & b1 & b2 & _ & _ & b3 & b4 & b5 & b6)
                        & _).
    unfold same_joint in *. destruct J as (j1 & j2 & j3 & j4 & j5 & j6).
    repeat split; congruence. }
  assert (Ent : forall k link,
             nth_error (links_ t) k = Some link ->
             same_pose (h' link) (g' link)).
  { induction k as [k IH] using lt_wf_ind. intros link Hl.
    destruct k as [|k].
    - assert (Hn : ~ In link (tl (links_ t))).
      { destruct (links_ t) as [|y l]; [discriminate|].
        simpl in Hl. injection Hl as <-. simpl. now inversion Hnd. }
      rewrite (F1 link Hn), (F2 link Hn). exact (Hfront link Hl).
    - destruct (Z_le_gt_dec (Z.of_nat (S k)) (numUpwardConnections t))
        as [Hle|Hgt].
      + destruct (nth_error (links_ t) k) as [child|] eqn:Ec.
        2:{ apply nth_error_None in Ec.
            assert (S k < length (links_ t))
              by (apply nth_error_Some; congruence). lia. }
        assert (Ec' : nth_error (links_ t) (S k - 1) = Some child)
          by (replace (S k - 1) with k by lia; exact Ec).
        rewrite (Up1 (S k) link child) by (assumption || lia).
        rewrite (Up2 (S k) link child) by (assumption || lia).
        apply upward_link_same_pose.
        * apply J'. exact (nth_error_In _ _ Ec).
        * exact (IH k (Nat.lt_succ_diag_r k) child Ec).
      + assert (Hk1 : 1 <= S k) by lia.
        assert (HkU : (numUpwardConnections t < Z.of_nat (S k))%Z) by lia.
        destruct (Hpar (S k) link Hk1 HkU Hl)
          as (par & Hp & Hp' & j & Hjk & Hjp).
        rewrite (Dn1 (S k) link par Hk1 HkU Hl Hp) by eauto.
        rewrite (Dn2 (S k) link par Hk1 HkU Hl Hp') by eauto.
        apply downward_link_same_pose.
        * exact (IH j Hjk par Hjp).
        * apply Hj. exact (nth_error_In _ _ Hl). }
  intros x Hin.
  destruct (In_nth_error _ _ Hin) as [k Hk]. exact (Ent k x Hk).
Qed.

Lemma calcForwardKinematics_pose_determined_witness :
  same_pose (turning_result 1%nat)
            (downward_step false false 1 0 turning_pose_only 1%nat).
Proof.
  apply (calcForwardKinematics_pose_determined true true false false
           root_and_child turning_heap turning_pose_only
           turning_result
           (downward_step false false 1 0 turning_pose_only)).
  - repeat constructor; simpl; intuition discriminate.
  - intros k link Hk1 Hk Hl.
    destruct k as [|[|k]]; [lia| |destruct k; discriminate].
    simpl in Hl. injection Hl as <-.
    exists 0%nat. split; [reflexivity|]. split; [reflexivity|].
    exists 0%nat. split; [lia|reflexivity].
  - intros x [<-|[<-|[]]];
      unfold same_joint; repeat (split; [reflexivity|]); reflexivity.
  - intros front [= <-]. split; reflexivity.
  - reflexivity.
  - reflexivity.
  - simpl. tauto.
Defined.

(** ** The first loop against the second *)

(** The velocities and accelerations that the upward step gives the link
    are those from which the downward step gives the child its own. *)
Lemma upward_link_motion cv ca (chi l : Link.t) :
  same_motion chi (downward_link cv ca (upward_link cv ca chi l) chi).
Proof.
  destruct chi as [? ? ? ? jt cq cdq cddq ca' cd cb cRb cR cp cw cv' cdw cdv].
  destruct l as [? ? ? ? ? ? ? ? ? ? ? ? lR lp lw lv ldw ldv].
  unfold same_motion.
  destruct jt, cv, ca; eval_link; forget_arms;
    (split; [|split; [|split]]); try reflexivity; vec_eq.
Qed.

(** A link in the pose and with the velocities that the downward step
    computes is left as it is by the step. *)
Lemma downward_link_fixed cv ca (par l : Link.t) :
  pose_rel par l ->
  same_motion l (downward_link cv ca par l) ->
  downward_link cv ca par l = l.
Proof.
  destruct par as [? ? ? ? ? ? ? ? ? ? ? ? Rp pp wp vp dwp dvp].
  destruct l as [? ? ? ? jt lq ldq lddq la ld lb lRb lR lp lw lv ldw ldv].
  unfold same_motion.
  destruct jt, cv, ca; eval_link;
    intros (HR & Hp) (Hw & Hv & Hdw & Hdv); congruence.
Qed.

(** X13: after [calcForwardKinematics], the formulas of the second loop
    hold across every joint of the traversal, with the joint velocities and
    accelerations as they are.  Applied to an entry of the second loop and
    its parent, they return the link as it is; applied across a joint that
    the first loop has crossed, from the link on the parent side down to
    the entry before it, they return that entry's velocities and
    accelerations, and the whole entry when its [Rb] is a rotation and the
    axis of a rotational joint a unit vector. *)
Theorem calcForwardKinematics_fixed_point (cv ca : bool) (t : LinkTraverse)
    (h h' : Heap) :
  NoDup (links_ t) ->
  calcForwardKinematics cv ca t h = Some h' ->
  (forall k link child,
      (1 <= Z.of_nat k <= numUpwardConnections t)%Z ->
      nth_error (links_ t) k = Some link ->
      nth_error (links_ t) (k - 1) = Some child ->
      same_motion (h' child) (downward_link cv ca (h' link) (h' child)) /\
      (orthogonal (Link.Rb (h child)) ->
       (Link.jointType (h child) = ROTATIONAL_JOINT ->
        unit_vector (Link.a (h child))) ->
       downward_link cv ca (h' link) (h' child) = h' child)) /\
  (forall k link par,
      (1 <= k)%nat ->
      (numUpwardConnections t < Z.of_nat k)%Z ->
      nth_error (links_ t) k = Some link ->
      Link.parent (h link) = Some par ->
      (exists j, (j < k)%nat /\ nth_error (links_ t) j = Some par) ->
      downward_link cv ca (h' par) (h' link) = h' link).
Proof.
  intros Hnd H.
  destruct (calcForwardKinematics_entries cv ca t h h' Hnd H) as [Up Down].
  destruct (calcForwardKinematics_keeps cv ca t h h' H) as [K _].
  split.
  - intros k link child Hk Hl Hc.
    rewrite (Up k link child Hk Hl Hc).
    split; [apply upward_link_motion|].
    intros Hrb Ha.
    apply downward_link_fixed; [|apply upward_link_motion].
    destruct (K child) as (M & _). unfold same_model in M.
    decompose [and] M.
    apply upward_link_pose.
    + congruence.
    + intros Hj. replace (Link.a (h' child)) with (Link.a (h child))
        by congruence.
      apply Ha. congruence.
  - intros k link par Hk1 Hk Hl Hp Hj.
    rewrite (Down k link par Hk1 Hk Hl Hp Hj).
    apply downward_link_idem.
Qed.

Open Scope R_scope.

Lemma calcForwardKinematics_fixed_point_witness :
  downward_link true true
    (upward_step true true 0%nat 1%nat quarter_turn_heap 0%nat)
    (upward_step true true 0%nat 1%nat quarter_turn_heap 1%nat)
  = upward_step true true 0%nat 1%nat quarter_turn_heap 1%nat.
Proof.
  destruct (calcForwardKinematics_fixed_point true true child_and_root
              quarter_turn_heap
              (upward_step true true 0%nat 1%nat quarter_turn_heap)
              ltac:(repeat constructor; simpl; intuition discriminate)
              eq_refl) as [Up _].
  apply (Up 1%nat 0%nat 1%nat).
  - simpl. lia.
  - reflexivity.
  - reflexivity.
  - unfold orthogonal. simpl. coords. f_equal; ring.
  - intros _. unfold unit_vector. simpl. ring.
Defined.

Close Scope R_scope.

(** ** What [find] hands to the first loop *)

Lemma parent_chain_links h :
  forall fuel x chain,
    parent_chain fuel h x = Some chain ->
    forall k link child,
      nth_error chain (S k) = Some link ->
      nth_error chain k = Some child ->
      Link.parent (h child) = Some link /\
      Link.body (h link) = Link.body (h child).
Proof.
  induction fuel as [|fuel IH]; intros x chain H k link child Hl Hc;
    [discriminate|].
  simpl in H.
  destruct (Link.parent (h x)) as [par|] eqn:Ep.
  2:{ injection H as <-. destruct k; discriminate. }
  destruct (ptr_eqb (Link.body (h par)) (Link.body (h x))) eqn:Eb.
  2:{ injection H as <-. destruct k; discriminate. }
  destruct (parent_chain fuel h par) as [l|] eqn:El; [|discriminate].
  cbn [bind] in H. injection H as <-.
  destruct k as [|k].
  - simpl in Hc. injection Hc as <-.
    destruct (parent_chain_head _ _ _ _ El) as (rest & ->).
    simpl in Hl. injection Hl as <-.
    split; [exact Ep|]. now apply ptr_eqb_true.
  - exact (IH par l El k link child Hl Hc).
Qed.

(** X14: on any store, whenever [find] returns, the entries that the first
    loop of [calcForwardKinematics] pairs up are joined as the loop
    takes them to be: for every [i] in [1..numUpwardConnections], entry
    [i] is the parent pointer of entry [i-1] and a link of the same
    body. *)
Theorem find_upward_pairs (fuel : nat) (h : Heap) (x : LinkId)
    (doUpward doDownward : bool) (t0 t : LinkTraverse) (i : nat) :
  find fuel h x doUpward doDownward t0 = Some t ->
  (1 <= Z.of_nat i <= numUpwardConnections t)%Z ->
  exists link child,
    nth_error (links_ t) i = Some link /\
    nth_error (links_ t) (i - 1) = Some child /\
    Link.parent (h child) = Some link /\
    Link.body (h link) = Link.body (h child).
Proof.
  unfold find. intros H Hi.
  destruct (proj1 (traverse_shape h fuel) _ _ _ _ _ _ _ H) as (rest & L & U).
  cbn [links_ numUpwardConnections app] in L, U.
  destruct doUpward; [|lia].
  destruct U as (chain & more & C & S & N).
  assert (Hlen : (i < length chain)%nat) by lia.
  destruct (nth_error chain i) as [link|] eqn:El.
  2:{ apply nth_error_None in El. lia. }
  destruct (nth_error chain (i - 1)) as [child|] eqn:Ec.
  2:{ apply nth_error_None in Ec. lia. }
  exists link, child. rewrite L, S.
  rewrite !nth_error_app1 by lia.
  split; [exact El|]. split; [exact Ec|].
  apply (parent_chain_links h fuel x chain C (i - 1)); [|exact Ec].
  replace (Datatypes.S (i - 1)) with i by lia. exact El.
Qed.

Lemma find_upward_pairs_witness :
  exists link child,
    nth_error [3; 1; 0; 2]%nat 2 = Some link /\
    nth_error [3; 1; 0; 2]%nat (2 - 1) = Some child /\
    Link.parent (fork_heap child) = Some link /\
    Link.body (fork_heap link) = Link.body (fork_heap child).
Proof.
  apply (find_upward_pairs 6 fork_heap 3 true true empty_traverse
           (mkLinkTraverse [3; 1; 0; 2]%nat 2) 2).
  - reflexivity.
  - simpl. lia.
Defined.
